(** * Portfolio page scripts (src/js/app.js): a shallow embedding

    The page script is modelled component by component, each over the slice
    of the shared [state] object and of the host (DOM, localStorage,
    animation-frame queue) it touches:

    - [JsString]   strings as sequences of UTF-16 code units, [trim], and the
                   regular expressions needed for the e-mail pattern;
    - [Form]       [validateField], [showFieldError], [handleFormSubmit];
    - [Theme]      [updateTheme], [toggleTheme];
    - [Particles]  [createParticles], [animateParticles];
    - [Loop]       [animate], [startAnimation] and the visibility handler;
    - [Carousel]   width measurement with its fallback, and [step];
    - [Typewriter] [setupTypewriter] and its timer callback;
    - [ScrollSpy]  the section observer's callback;
    - [Lightbox]   [openModal], [closeModal] and the track's click listener;
    - [CarouselEvents] the carousel's frames together with its pointer and
                   focus listeners;
    - [FormChecks] what a submission checks, stated on the form's data.

    The definitions come first; the properties follow, one module of facts
    per component ([FormFacts], [ThemeFacts], [CarouselFacts], [LoopFacts],
    [ParticlesFacts]).  The statements marked C1 to C10 are the properties
    the specification lists for the script; those marked X, in the modules
    after them, are further properties read off the code.

    Numbers: a JavaScript number is idealised as a real ([R]); rounding and
    overflow of IEEE doubles (and the single-precision storage of a
    Float32Array) are not modelled.  Where the script itself tests for NaN
    or infinities (the carousel's width fallback) the number type [jsnum]
    carries them explicitly. *)

From Stdlib Require Import ZArith NArith List String Ascii Bool Lia Reals Lra.
From stdpp Require Import base option list strings gmap.
Import ListNotations.

(* ===================================================================== *)
(** ** Strings *)
(* ===================================================================== *)

Module JsString.

(** A JavaScript string is a sequence of 16-bit code units; [length] counts
    code units. *)
Definition jsstring := list N.

Definition of_string (s : string) : jsstring :=
  map N_of_ascii (list_ascii_of_string s).

(** WhiteSpace and LineTerminator code points of ECMAScript: what
    [String.prototype.trim] strips and what [\s] matches. *)
Definition isWhiteSpace (c : N) : bool :=
  ((9 <=? c) && (c <=? 13) || (c =? 32) || (c =? 160) || (c =? 5760)
   || (8192 <=? c) && (c <=? 8202)
   || (c =? 8232) || (c =? 8233) || (c =? 8239) || (c =? 8287)
   || (c =? 12288) || (c =? 65279))%N.

Fixpoint trimStart (s : jsstring) : jsstring :=
  match s with
  | c :: s' => if isWhiteSpace c then trimStart s' else s
  | [] => []
  end.

Definition trimEnd (s : jsstring) : jsstring := rev (trimStart (rev s)).

Definition trim (s : jsstring) : jsstring := trimEnd (trimStart s).

(** A string is [trimmed] when it neither starts nor ends with white
    space. *)
Definition trimmed (s : jsstring) : Prop :=
  (forall c s', s = c :: s' -> isWhiteSpace c = false) /\
  (forall c s', s = s' ++ [c] -> isWhiteSpace c = false).

(** Regular expressions over code units, as far as the script's one pattern
    needs them: character classes, sequence, alternation, iteration. *)
Inductive regex : Type :=
| Void : regex
| Eps : regex
| Class : (N -> bool) -> regex
| Seq : regex -> regex -> regex
| Alt : regex -> regex -> regex
| Star : regex -> regex.

Definition Plus (r : regex) : regex := Seq r (Star r).

Fixpoint nullable (r : regex) : bool :=
  match r with
  | Void => false
  | Eps => true
  | Class _ => false
  | Seq r1 r2 => nullable r1 && nullable r2
  | Alt r1 r2 => nullable r1 || nullable r2
  | Star _ => true
  end.

Fixpoint deriv (c : N) (r : regex) : regex :=
  match r with
  | Void => Void
  | Eps => Void
  | Class p => if p c then Eps else Void
  | Seq r1 r2 =>
      if nullable r1 then Alt (Seq (deriv c r1) r2) (deriv c r2)
      else Seq (deriv c r1) r2
  | Alt r1 r2 => Alt (deriv c r1) (deriv c r2)
  | Star r1 => Seq (deriv c r1) (Star r1)
  end.

(** [matches r s]: the whole of [s] is in the language of [r], i.e.
    [/^r$/.test(s)]. *)
Fixpoint matches (r : regex) (s : jsstring) : bool :=
  match s with
  | [] => nullable r
  | c :: s' => matches (deriv c r) s'
  end.

(** The language of a regular expression, to state what [matches] decides. *)
Inductive lang : regex -> jsstring -> Prop :=
| lang_eps : lang Eps []
| lang_class p c : p c = true -> lang (Class p) [c]
| lang_seq r1 r2 s1 s2 : lang r1 s1 -> lang r2 s2 -> lang (Seq r1 r2) (s1 ++ s2)
| lang_alt_l r1 r2 s : lang r1 s -> lang (Alt r1 r2) s
| lang_alt_r r1 r2 s : lang r2 s -> lang (Alt r1 r2) s
| lang_star_nil r : lang (Star r) []
| lang_star_cons r s1 s2 : lang r s1 -> lang (Star r) s2 -> lang (Star r) (s1 ++ s2).

(** [[^\s@]]: any code unit that is neither white space nor ["@"]. *)
Definition notSpaceNorAt (c : N) : bool := negb (isWhiteSpace c) && negb (c =? 64)%N.

(** [/^[^\s@]+@[^\s@]+\.[^\s@]+$/] (line 175). *)
Definition emailRegex : regex :=
  Seq (Plus (Class notSpaceNorAt))
    (Seq (Class (N.eqb 64))
       (Seq (Plus (Class notSpaceNorAt))
          (Seq (Class (N.eqb 46))
             (Plus (Class notSpaceNorAt))))).

End JsString.

(* ===================================================================== *)
(** ** Contact form *)
(* ===================================================================== *)

Module Form.
Import JsString.

(** A form control: its [name], current [value], the value [reset()] puts
    back, and whether its class list holds ["error"].  The controls are
    those of the contact form: text inputs and text areas, none of them
    disabled, so each one with a non-empty name has an entry in the form
    data. *)
Record Field := mkField {
  name : string;
  value : jsstring;
  defaultValue : jsstring;
  errorClass : bool
}.

(** An error element ([<name>-error]): its text and whether its class list
    holds ["show"]. *)
Record ErrorElement := mkErr {
  textContent : string;
  shown : bool
}.

(** The part of the document the form code touches: the controls of the
    contact form in tree order, the elements reachable by id, and the number
    of success notices appended to the body. *)
Record Page := mkPage {
  fields : list Field;
  byId : gmap string ErrorElement;
  notices : nat
}.

(** The [switch] of [validateField] on the trimmed value: the pair
    [(isValid, errorMessage)] it ends with. *)
Definition validate (fieldName : string) (rawValue : jsstring) : bool * string :=
  let value := trim rawValue in
  if String.eqb fieldName "name" then
    if (length value =? 0)%nat then (false, "Name is required")
    else if (length value <? 2)%nat then (false, "Name must be at least 2 characters")
    else (true, "")
  else if String.eqb fieldName "email" then
    if (length value =? 0)%nat then (false, "Email is required")
    else if negb (matches emailRegex value) then (false, "Please enter a valid email address")
    else (true, "")
  else if String.eqb fieldName "message" then
    if (length value =? 0)%nat then (false, "Message is required")
    else if (length value <? 10)%nat then (false, "Message must be at least 10 characters")
    else (true, "")
  else (true, "").

Definition setErrorClass (b : bool) (f : Field) : Field :=
  mkField (name f) (value f) (defaultValue f) b.

(** [showFieldError(field, message, hasError)], for the control at index [i]. *)
Definition showFieldError (i : nat) (message : string) (hasError : bool) (p : Page) : Page :=
  match fields p !! i with
  | None => p
  | Some f =>
      let id := (name f ++ "-error")%string in
      let fs := <[i := setErrorClass hasError f]> (fields p) in
      let els :=
        match byId p !! id with
        | None => byId p
        | Some _ =>
            if hasError then <[id := mkErr message true]> (byId p)
            else <[id := mkErr "" false]> (byId p)
        end in
      mkPage fs els (notices p)
  end.

(** [validateField(field)], for the control at index [i]. *)
Definition validateField (i : nat) (p : Page) : bool * Page :=
  match fields p !! i with
  | None => (true, p)
  | Some f =>
      let '(isValid, errorMessage) := validate (name f) (value f) in
      let p1 := mkPage (<[i := setErrorClass false f]> (fields p)) (byId p) (notices p) in
      (isValid, showFieldError i errorMessage (negb isValid) p1)
  end.

Definition clearError (i : nat) (p : Page) : Page := showFieldError i "" false p.

(** [form.querySelector('[name="key"]')]: the first control of that name. *)
Fixpoint querySelectorName (key : string) (fs : list Field) (i : nat) : option nat :=
  match fs with
  | [] => None
  | f :: fs' => if String.eqb (name f) key then Some i
                else querySelectorName key fs' (S i)
  end.

(** [Object.keys(Object.fromEntries(new FormData(form)))]: the names of the
    named controls, each once. *)
Fixpoint dedup (seen : list string) (ks : list string) : list string :=
  match ks with
  | [] => []
  | k :: ks' => if existsb (String.eqb k) seen then dedup seen ks'
                else k :: dedup (k :: seen) ks'
  end.

Definition formKeys (fs : list Field) : list string :=
  dedup [] (filter (fun k => negb (String.eqb k "")) (map name fs)).

Definition showSuccessMessage (p : Page) : Page :=
  mkPage (fields p) (byId p) (S (notices p)).

Definition resetField (f : Field) : Field :=
  mkField (name f) (defaultValue f) (defaultValue f) (errorClass f).

Definition reset (p : Page) : Page :=
  mkPage (map resetField (fields p)) (byId p) (notices p).

(** The [forEach] over the keys, threading [isValid] and the page. *)
Fixpoint validateAll (keys : list string) (isValid : bool) (p : Page) : bool * Page :=
  match keys with
  | [] => (isValid, p)
  | key :: keys' =>
      match querySelectorName key (fields p) 0 with
      | None => validateAll keys' isValid p
      | Some i =>
          let '(ok, p') := validateField i p in
          validateAll keys' (if ok then isValid else false) p'
      end
  end.

Definition handleFormSubmit (p : Page) : Page :=
  let '(isValid, p') := validateAll (formKeys (fields p)) true p in
  if isValid then reset (showSuccessMessage p') else p'.

(** Modelled from the spec: the markup of the contact form (the page's
    HTML is not among the sources).  As in the spec's end-to-end scenarios,
    the form has three controls named [name], [email] and [message], each
    with an error element [<name>-error], nothing shown yet; [defaults] are
    the values [reset()] would put back. *)
Definition contactForm (nameValue emailValue messageValue : string)
    (defaults : jsstring * jsstring * jsstring) : Page :=
  let '(d1, d2, d3) := defaults in
  mkPage [ mkField "name" (of_string nameValue) d1 false;
           mkField "email" (of_string emailValue) d2 false;
           mkField "message" (of_string messageValue) d3 false ]
         (<["name-error" := mkErr "" false]>
            (<["email-error" := mkErr "" false]>
               (<["message-error" := mkErr "" false]> ∅)))
         0.

End Form.

(* ===================================================================== *)
(** ** Theme *)
(* ===================================================================== *)

Module Theme.

(** The glyph shown in the toggle button (a sun or a moon emoji). *)
Inductive Icon := Sun | Moon.

(** [state.currentTheme], the [data-theme] attribute of the root element,
    the toggle's icon when the toggle button exists, and [localStorage]. *)
Record ThemeState := mkTheme {
  currentTheme : string;
  dataTheme : option string;
  themeToggle : option Icon;
  localStorage : gmap string string
}.

Definition updateTheme (s : ThemeState) : ThemeState :=
  mkTheme (currentTheme s)
          (Some (currentTheme s))
          (match themeToggle s with
           | Some _ => Some (if String.eqb (currentTheme s) "dark" then Sun else Moon)
           | None => None
           end)
          (localStorage s).

Definition toggleTheme (s : ThemeState) : ThemeState :=
  let s1 := mkTheme (if String.eqb (currentTheme s) "dark" then "light" else "dark")
                    (dataTheme s) (themeToggle s) (localStorage s) in
  let s2 := updateTheme s1 in
  mkTheme (currentTheme s2) (dataTheme s2) (themeToggle s2)
          (<["theme" := currentTheme s2]> (localStorage s2)).

(** [setupTheme], given what [matchMedia('(prefers-color-scheme: dark)')]
    answers.  A stored empty string is falsy and falls through to the
    preference. *)
Definition setupTheme (prefersDark : bool) (s : ThemeState) : ThemeState :=
  let saved := localStorage s !! "theme" in
  let theme :=
    match saved with
    | Some t => if String.eqb t "" then (if prefersDark then "dark" else "light") else t
    | None => if prefersDark then "dark" else "light"
    end in
  updateTheme (mkTheme theme (dataTheme s) (themeToggle s) (localStorage s)).

End Theme.

(* ===================================================================== *)
(** ** Particle field *)
(* ===================================================================== *)

Module Particles.
Local Open Scope R_scope.

(** [state.particles]: the typed arrays behind the geometry attributes
    [position], [size] and [color], the [velocities] array kept in
    [userData], the shader's [time] uniform and the [needsUpdate] flag of
    the position attribute.  Each array is flat: particle [j] owns the
    indices [3j], [3j+1], [3j+2] of [positions], [velocities] and [colors]
    and index [j] of [sizes]. *)
Record Points := mkPoints {
  positions : list R;
  velocities : list R;
  sizes : list R;
  colors : list R;
  timeUniform : R;
  needsUpdate : bool
}.

(** What a frame reads from the host: [Date.now()] (milliseconds),
    [state.mousePosition] and the window's inner size. *)
Record Env := mkEnv {
  dateNow : R;
  mouseX : R;
  mouseY : R;
  innerWidth : R;
  innerHeight : R
}.

(** Reading an element of a typed array.  A read outside the array gives
    [undefined] in JavaScript; the arrays [createParticles] allocates hold
    whole triples, so every read of the update loop is inside them (see
    [strideIndices_in_range]) and the default below is never used. *)
Definition get (a : list R) (i : nat) : R := default 0 (a !! i).

(** The three entries of particle data that start at flat index [i]. *)
Definition triple (a : list R) (i : nat) : R * R * R :=
  (get a i, get a (i + 1)%nat, get a (i + 2)%nat).

Definition setPositions (a : list R) (p : Points) : Points :=
  mkPoints a (velocities p) (sizes p) (colors p) (timeUniform p) (needsUpdate p).
Definition setVelocities (a : list R) (p : Points) : Points :=
  mkPoints (positions p) a (sizes p) (colors p) (timeUniform p) (needsUpdate p).
Definition setSizes (a : list R) (p : Points) : Points :=
  mkPoints (positions p) (velocities p) a (colors p) (timeUniform p) (needsUpdate p).
Definition setColors (a : list R) (p : Points) : Points :=
  mkPoints (positions p) (velocities p) (sizes p) a (timeUniform p) (needsUpdate p).

(** The arrays other than [positions], the uniform and the flag. *)
Definition rest (p : Points) : list R * list R * list R * R * bool :=
  (velocities p, sizes p, colors p, timeUniform p, needsUpdate p).

(** [positions[i] = v] and the like: a typed array ignores a write out of
    range, as [<[i:=v]>] does. *)
Definition writePosition (i : nat) (v : R) (p : Points) : Points :=
  setPositions (<[i := v]> (positions p)) p.
Definition writeVelocity (i : nat) (v : R) (p : Points) : Points :=
  setVelocities (<[i := v]> (velocities p)) p.
Definition writeSize (i : nat) (v : R) (p : Points) : Points :=
  setSizes (<[i := v]> (sizes p)) p.
Definition writeColor (i : nat) (v : R) (p : Points) : Points :=
  setColors (<[i := v]> (colors p)) p.

Definition particleCount : nat := 400.

Section WithRandom.

(** [random k] is what the [k]-th call of [Math.random()] returns; the
    loops thread the number of calls made so far. *)
Variable random : nat -> R.

(** One iteration of the creation loop (lines 341-375). *)
Definition createBody (i : nat) (w : Points * nat) : Points * nat :=
  let '(p, k) := w in
  let i3 := (i * 3)%nat in
  let p := writePosition i3 ((random k - 0.5) * 40) p in
  let p := writePosition (i3 + 1) (random (k + 1)%nat * 30 - 15) p in
  let p := writePosition (i3 + 2) ((random (k + 2)%nat - 0.5) * 20) p in
  let p := writeVelocity i3 ((random (k + 3)%nat - 0.5) * 0.02) p in
  let p := writeVelocity (i3 + 1) (random (k + 4)%nat * 0.03 + 0.01) p in
  let p := writeVelocity (i3 + 2) ((random (k + 5)%nat - 0.5) * 0.015) p in
  let p := writeSize i (random (k + 6)%nat * 3 + 1) p in
  let colorType := random (k + 7)%nat in
  let p :=
    if Rlt_dec colorType 0.33 then
      writeColor (i3 + 2) 0.86 (writeColor (i3 + 1) 0.49 (writeColor i3 1.0 p))
    else if Rlt_dec colorType 0.66 then
      writeColor (i3 + 2) 1.0 (writeColor (i3 + 1) 0.91 (writeColor i3 0.49 p))
    else
      writeColor (i3 + 2) 0.42 (writeColor (i3 + 1) 0.72 (writeColor i3 1.0 p)) in
  (p, (k + 8)%nat).

(** [createParticles]: four zero-filled typed arrays, then the loop over
    [i = 0 .. particleCount - 1].  [k] counts the calls of [Math.random()]
    made before. *)
Definition createParticles (k : nat) : Points * nat :=
  let blank := mkPoints (replicate (particleCount * 3) 0)
                        (replicate (particleCount * 3) 0)
                        (replicate particleCount 0)
                        (replicate (particleCount * 3) 0)
                        0 false in
  fold_left (fun w i => createBody i w) (seq 0 particleCount) (blank, k).

Definition mouseInfluence : R := 0.0003.

(** The two-sided wrap of lines 466-469 on one coordinate. *)
Definition wrap (bound v : R) : R :=
  let v := if Rgt_dec v bound then - bound else v in
  if Rlt_dec v (- bound) then bound else v.

(** One iteration of the update loop at flat index [i], in three parts.
    Lines 446-457: velocity, floating motion, mouse parallax. *)
Definition integrate (env : Env) (time : R) (i : nat) (p : Points) : Points :=
  let vel := velocities p in
  let p := writePosition i (get (positions p) i + get vel i) p in
  let p := writePosition (i + 1) (get (positions p) (i + 1) + get vel (i + 1)) p in
  let p := writePosition (i + 2) (get (positions p) (i + 2) + get vel (i + 2)) p in
  let p := writePosition i (get (positions p) i + sin (time + INR i * 0.01) * 0.01) p in
  let p := writePosition (i + 2)
             (get (positions p) (i + 2) + cos (time + INR i * 0.015) * 0.008) p in
  let p := writePosition i
             (get (positions p) i + (mouseX env - innerWidth env / 2) * mouseInfluence) p in
  writePosition (i + 1)
    (get (positions p) (i + 1) - (mouseY env - innerHeight env / 2) * mouseInfluence) p.

(** Lines 460-464: a particle above the top restarts at the bottom, at a
    random x and z. *)
Definition respawn (i : nat) (w : Points * nat) : Points * nat :=
  let '(p, k) := w in
  if Rgt_dec (get (positions p) (i + 1)) 15 then
    let p := writePosition (i + 1) (-15) p in
    let p := writePosition i ((random k - 0.5) * 40) p in
    let p := writePosition (i + 2) ((random (k + 1)%nat - 0.5) * 20) p in
    (p, (k + 2)%nat)
  else (p, k).

(** Lines 466-469: x and z wrap to the opposite side. *)
Definition wrapSides (i : nat) (p : Points) : Points :=
  let p := if Rgt_dec (get (positions p) i) 20 then writePosition i (-20) p else p in
  let p := if Rlt_dec (get (positions p) i) (-20) then writePosition i 20 p else p in
  let p := if Rgt_dec (get (positions p) (i + 2)) 10 then writePosition (i + 2) (-10) p else p in
  if Rlt_dec (get (positions p) (i + 2)) (-10) then writePosition (i + 2) 10 p else p.

Definition body (env : Env) (time : R) (i : nat) (w : Points * nat) : Points * nat :=
  let '(p, k) := respawn i (integrate env time i (fst w), snd w) in
  (wrapSides i p, k).

(** What one iteration makes of the particle at flat index [i], as a
    function of its coordinates and velocity (see [body_advance]). *)
Definition advance (env : Env) (time : R) (i k : nat) (pos vel : R * R * R)
  : (R * R * R) * nat :=
  let '(x, y, z) := pos in
  let '(vx, vy, vz) := vel in
  let x1 := x + vx + sin (time + INR i * 0.01) * 0.01
            + (mouseX env - innerWidth env / 2) * mouseInfluence in
  let y1 := y + vy - (mouseY env - innerHeight env / 2) * mouseInfluence in
  let z1 := z + vz + cos (time + INR i * 0.015) * 0.008 in
  if Rgt_dec y1 15 then
    ((wrap 20 ((random k - 0.5) * 40), -15, wrap 10 ((random (k + 1)%nat - 0.5) * 20)),
     (k + 2)%nat)
  else ((wrap 20 x1, y1, wrap 10 z1), k).

(** The values [i] takes in [for (i = 0; i < len; i += 3)]; the length of a
    typed array does not change, so the bound is fixed on entry. *)
Definition strideIndices (len : nat) : list nat :=
  map (fun j => (3 * j)%nat) (seq 0 ((len + 2) / 3)).

(** [animateParticles]: nothing without particles; otherwise the time
    uniform is set, every particle is advanced, and the position attribute
    is flagged for upload. *)
Definition animateParticles (env : Env) (w : option Points * nat) : option Points * nat :=
  match w with
  | (None, k) => (None, k)
  | (Some p, k) =>
      let time := dateNow env * 0.001 in
      let p := mkPoints (positions p) (velocities p) (sizes p) (colors p)
                        time (needsUpdate p) in
      let '(p, k) :=
        fold_left (fun w i => body env time i w)
                  (strideIndices (length (positions p))) (p, k) in
      (Some (mkPoints (positions p) (velocities p) (sizes p) (colors p)
                      (timeUniform p) true), k)
  end.

(** Any number of frames, each with what the host shows at that frame. *)
Definition frames (envs : list Env) (w : option Points * nat) : option Points * nat :=
  fold_left (fun w env => animateParticles env w) envs w.

End WithRandom.

(** The spec's wording of the drift terms, to compare with [integrate]:
    [sin(t + position[i].y * 0.01) * 0.01] on x and
    [cos(t + position[i].x * 0.015) * 0.008] on z. *)
Definition specDriftX (t y : R) : R := sin (t + y * 0.01) * 0.01.
Definition specDriftZ (t x : R) : R := cos (t + x * 0.015) * 0.008.

End Particles.

(* ===================================================================== *)
(** ** The particle loop and page visibility *)
(* ===================================================================== *)

Module Loop.
Import Particles.

(** The slice of [state] and of the host the loop touches.  [animationId]
    is [None] for [null]; a handle returned by [requestAnimationFrame] is a
    positive integer, hence always truthy.  [rafQueue] holds the handles of
    the [animate] callbacks waiting for the next frame. *)
Record LoopState := mkLoop {
  hidden : bool;
  animationId : option positive;
  rafQueue : list positive;
  nextHandle : positive;
  particles : option Points * nat;
  canRender : bool;
  renders : nat
}.

(** A loop that has been scheduled once and has no callback waiting is
    never scheduled again: [state.animationId] keeps its last handle, so
    the visibility listener does not call [startAnimation]. *)
Definition stopped (s : LoopState) : Prop :=
  is_Some (animationId s) /\ rafQueue s = [].

(** At most one callback is ever waiting, and only after the loop has
    stored a handle: the listener cannot start a second loop beside a
    running one. *)
Definition single (s : LoopState) : Prop :=
  (length (rafQueue s) <= 1)%nat /\ (rafQueue s <> [] -> is_Some (animationId s)).

Section WithRandom.
Variable random : nat -> R.

(** [requestAnimationFrame(animate)] followed by the assignment of its
    result to [state.animationId]. *)
Definition requestAnimate (s : LoopState) : LoopState :=
  mkLoop (hidden s) (Some (nextHandle s)) (rafQueue s ++ [nextHandle s])
         (Pos.succ (nextHandle s)) (particles s) (canRender s) (renders s).

(** [animate] (lines 475-488). *)
Definition animate (env : Env) (s : LoopState) : LoopState :=
  if hidden s then s
  else
    let s := requestAnimate s in
    let ps := animateParticles random env (particles s) in
    mkLoop (hidden s) (animationId s) (rafQueue s) (nextHandle s) ps (canRender s)
           (if canRender s then S (renders s) else renders s).

Definition startAnimation (env : Env) (s : LoopState) : LoopState := animate env s.

(** The [visibilitychange] listener (lines 513-517). *)
Definition onVisibilityChange (env : Env) (s : LoopState) : LoopState :=
  if negb (hidden s) && negb (bool_decide (is_Some (animationId s)))
  then startAnimation env s else s.

(** What the host does to the loop: it runs the callbacks queued for a
    frame (those queued meanwhile wait for the next one), or it changes
    [document.hidden] and dispatches [visibilitychange]. *)
Inductive Event :=
| Frame (env : Env)
| Visibility (nowHidden : bool) (env : Env).

Definition handle (s : LoopState) (e : Event) : LoopState :=
  match e with
  | Frame env =>
      let due := rafQueue s in
      let s := mkLoop (hidden s) (animationId s) [] (nextHandle s)
                      (particles s) (canRender s) (renders s) in
      fold_left (fun s _ => animate env s) due s
  | Visibility h env =>
      onVisibilityChange env
        (mkLoop h (animationId s) (rafQueue s) (nextHandle s)
                (particles s) (canRender s) (renders s))
  end.

Definition run (evs : list Event) (s : LoopState) : LoopState := fold_left handle evs s.

(** [setupThreeJsBackground] on a fresh page: without the library or the
    canvas nothing is set up; otherwise the scene objects and the particles
    are created and the loop is started.  [k] counts earlier calls of
    [Math.random()]. *)
Definition setupThreeJsBackground (available : bool) (isHidden : bool) (env : Env) (k : nat)
  : LoopState :=
  if available then
    let '(p, k') := createParticles random k in
    startAnimation env (mkLoop isHidden None [] 1%positive (Some p, k') true 0)
  else mkLoop isHidden None [] 1%positive (None, k) false 0.

End WithRandom.
End Loop.

(* ===================================================================== *)
(** ** Carousel *)
(* ===================================================================== *)

Module Carousel.
Local Open Scope R_scope.

(** A number as the width computation sees it: finite, [NaN] or an
    infinity. *)
Inductive jsnum :=
| Num (r : R)
| NaN
| PosInf
| NegInf.

Definition add (a b : jsnum) : jsnum :=
  match a, b with
  | Num x, Num y => Num (x + y)
  | NaN, _ | _, NaN => NaN
  | PosInf, NegInf | NegInf, PosInf => NaN
  | PosInf, _ | _, PosInf => PosInf
  | NegInf, _ | _, NegInf => NegInf
  end.

(** [!x] is true for [0] and [NaN]. *)
Definition truthy (a : jsnum) : bool :=
  match a with
  | Num r => if Req_dec_T r 0 then false else true
  | NaN => false
  | PosInf | NegInf => true
  end.

Definition isFinite (a : jsnum) : bool :=
  match a with
  | Num _ => true
  | _ => false
  end.

(** The [forEach] of lines 596-600 from item [i] on: [widths] are the
    remaining [getBoundingClientRect().width] values, [len] the number of
    original items, [gap] what [parseFloat] made of the computed gap. *)
Fixpoint sumWidths (gap : jsnum) (len i : nat) (widths : list R) (total : jsnum) : jsnum :=
  match widths with
  | [] => total
  | w :: widths' =>
      let total := add total (Num w) in
      let total := if (i <? len - 1)%nat then add total gap else total in
      sumWidths gap len (S i) widths' total
  end.

Definition measure (widths : list R) (gap : jsnum) : jsnum :=
  sumWidths gap (length widths) 0 widths (Num 0).

(** What layout can report: widths are not negative, and the parsed gap is
    a non-negative length or [NaN] (the computed value [normal]). *)
Definition gapOk (gap : jsnum) : Prop :=
  match gap with
  | Num g => 0 <= g
  | NegInf => False
  | NaN | PosInf => True
  end.

(** The defensive fallback of lines 603-606. *)
Definition fallback (w : jsnum) : jsnum :=
  if negb (truthy w) || negb (isFinite w) then Num 1000 else w.

(** [Math.round]. *)
Definition round (x : R) : R := IZR (Int_part (x + 0.5)).

(** The closure variables of the animation: the width of one set, the
    speed, the offset [px], the time of the previous frame, the pause flag,
    and the x translation last written to the track's style. *)
Record Track := mkTrack {
  originalTotalWidth : R;
  pxPerSecond : R;
  px : R;
  last : R;
  running : bool;
  translateX : option R
}.

(** Lines 594-618: the measured width with its fallback, the speed, and the
    initial closure variables; [now] is [performance.now()].  [None] stands
    for a width that is not a finite number, which [fallback] rules out
    (see [setup_defined]). *)
Definition setup (widths : list R) (gap : jsnum) (now : R) : option Track :=
  match fallback (measure widths gap) with
  | Num w => Some (mkTrack w (Rmax 30 (round (w / 6))) 0 now true None)
  | _ => None
  end.

(** [step(now)] (lines 620-629); it always asks for the next frame. *)
Definition step (now : R) (c : Track) : Track :=
  let dt := (now - last c) / 1000 in
  if running c then
    let px1 := px c + pxPerSecond c * dt in
    let px2 := if Rge_dec px1 (originalTotalWidth c) then px1 - originalTotalWidth c else px1 in
    mkTrack (originalTotalWidth c) (pxPerSecond c) px2 now true (Some (- px2))
  else
    mkTrack (originalTotalWidth c) (pxPerSecond c) (px c) now false (translateX c).

Definition pause (c : Track) : Track :=
  mkTrack (originalTotalWidth c) (pxPerSecond c) (px c) (last c) false (translateX c).
Definition resume (c : Track) : Track :=
  mkTrack (originalTotalWidth c) (pxPerSecond c) (px c) (last c) true (translateX c).

(** Frames at the given times, with no pointer or focus event in between. *)
Definition steps (nows : list R) (c : Track) : Track :=
  fold_left (fun c now => step now c) nows c.

(** The elapsed times of those frames, in seconds. *)
Fixpoint elapsed (prev : R) (nows : list R) : list R :=
  match nows with
  | [] => []
  | now :: nows' => (now - prev) / 1000 :: elapsed now nows'
  end.

Definition total (dts : list R) : R := fold_right Rplus 0 dts.

(** The spec's [x mod S]: the remainder after taking out whole multiples
    of [S]. *)
Definition modulo (x S : R) : R := x - IZR (Int_part (x / S)) * S.

End Carousel.

(* ===================================================================== *)
(** ** Typewriter *)
(* ===================================================================== *)

Module Typewriter.

Definition TYPEWRITER_TEXT : list ascii := list_ascii_of_string "Hi, I'm Begari Sairam".

(** The header element's text (when the element exists), the closure's
    [currentIndex], [state.isTyping], and the number of [setTimeout]
    callbacks of [typeNextCharacter] that have not fired yet. *)
Record Typing := mkTyping {
  typewriterText : option (list ascii);
  currentIndex : nat;
  isTyping : bool;
  timers : nat
}.

(** [setupTypewriter] (lines 96-116). *)
Definition setupTypewriter (s : Typing) : Typing :=
  match typewriterText s with
  | None => s
  | Some _ => mkTyping (Some []) 0 true (S (timers s))
  end.

(** [typeNextCharacter] (lines 104-112), run by a timer that is due. *)
Definition typeNextCharacter (s : Typing) : Typing :=
  match TYPEWRITER_TEXT !! currentIndex s with
  | Some c =>
      if isTyping s then
        mkTyping (option_map (fun t => t ++ [c]) (typewriterText s))
                 (S (currentIndex s)) true (S (timers s))
      else mkTyping (typewriterText s) (currentIndex s) false (timers s)
  | None => mkTyping (typewriterText s) (currentIndex s) false (timers s)
  end.

(** A pending timer fires; without one nothing happens. *)
Definition fire (s : Typing) : Typing :=
  match timers s with
  | O => s
  | S n => typeNextCharacter
             (mkTyping (typewriterText s) (currentIndex s) (isTyping s) n)
  end.

Definition fireTimes (n : nat) (s : Typing) : Typing := Nat.iter n fire s.

End Typewriter.

(* ===================================================================== *)
(** ** Text pasted into a selector *)
(* ===================================================================== *)

Module Selector.

(** The script builds attribute selectors by pasting a string between
    double quotes ([[href="#id"]], [[name="key"]]).  The pasted text stands
    for itself only when it holds none of the characters that end or escape
    a quoted string or that CSS rewrites before parsing: the double quote,
    the backslash, line feed, form feed, carriage return and NUL. *)
Definition plainChar (c : ascii) : bool :=
  negb (existsb (Nat.eqb (nat_of_ascii c)) [0; 10; 12; 13; 34; 92]%nat).

Definition selectorSafe (s : string) : bool :=
  forallb plainChar (list_ascii_of_string s).

End Selector.

(* ===================================================================== *)
(** ** Scroll spy *)
(* ===================================================================== *)

Module ScrollSpy.
Import Selector.

(** A navigation link: its [href] and whether its class list holds
    ["active"]. *)
Record NavLink := mkLink {
  href : string;
  active : bool
}.

(** What the observer reports for a section. *)
Record Entry := mkEntry {
  targetId : string;
  isIntersecting : bool
}.

(** [elements.navLinks.forEach(link => link.classList.remove('active'))]. *)
Definition clearActive (links : list NavLink) : list NavLink :=
  map (fun l => mkLink (href l) false) links.

(** [classList.add('active')] on the first link whose [href] is [h], the
    one [querySelector] finds; nothing when there is none. *)
Fixpoint activateFirst (h : string) (links : list NavLink) : list NavLink :=
  match links with
  | [] => []
  | l :: links' =>
      if String.eqb (href l) h then mkLink (href l) true :: links'
      else l :: activateFirst h links'
  end.

(** The body of the [forEach] over the entries (lines 278-290).  The link
    is looked up first, for every entry, with the section's id pasted into
    the selector (line 280); only then is [isIntersecting] tested.  For an
    id that is not [selectorSafe] the selector is not the plain test on
    [href]: [querySelector] throws a [SyntaxError], which ends the batch, or
    parses another selector.  That case is outside this model and answers
    [None]. *)
Definition onEntry (links : list NavLink) (e : Entry) : option (list NavLink) :=
  if selectorSafe (targetId e) then
    Some (if isIntersecting e
          then activateFirst ("#" ++ targetId e) (clearActive links)
          else links)
  else None.

(** The observer's callback: the entries in order, stopping at the first
    one that leaves the model. *)
Fixpoint sectionObserverCallback (entries : list Entry) (links : list NavLink)
  : option (list NavLink) :=
  match entries with
  | [] => Some links
  | e :: entries' =>
      match onEntry links e with
      | Some links' => sectionObserverCallback entries' links'
      | None => None
      end
  end.

(** The last entry of a batch that intersects, if any. *)
Fixpoint lastIntersecting (entries : list Entry) (found : option Entry) : option Entry :=
  match entries with
  | [] => found
  | e :: entries' =>
      lastIntersecting entries' (if isIntersecting e then Some e else found)
  end.

Definition countActive (links : list NavLink) : nat :=
  length (List.filter active links).

(** Every id of the batch can be pasted into the selector as it is. *)
Definition safeBatch (entries : list Entry) : Prop :=
  Forall (fun e => selectorSafe (targetId e) = true) entries.

End ScrollSpy.

(* ===================================================================== *)
(** ** Lightbox *)
(* ===================================================================== *)

Module Lightbox.

(** The modal's image, title and download link, its [aria-hidden]
    attribute, the body's [overflow] style, and whether the close button
    has been given the focus. *)
Record Modal := mkModal {
  imgSrc : string;
  imgAlt : string;
  titleText : string;
  downloadHref : string;
  ariaHidden : string;
  bodyOverflow : string;
  closeFocused : bool
}.

(** [a || b] on strings: the empty string is falsy. *)
Definition orElse (a b : string) : string :=
  if String.eqb a "" then b else a.

(** [a || b] where [a] may be [undefined]. *)
Definition orElseOpt (a : option string) (b : string) : string :=
  match a with
  | Some s => orElse s b
  | None => b
  end.

(** [openModal] (lines 647-655). *)
Definition openModal (src altText title : string) (m : Modal) : Modal :=
  mkModal src (orElse altText (orElse title "Certificate")) (orElse title "")
          src "false" "hidden" true.

(** [closeModal] (lines 656-660). *)
Definition closeModal (m : Modal) : Modal :=
  mkModal "" (imgAlt m) (titleText m) (downloadHref m) "true" "" (closeFocused m).

(** A carousel item: its image's [src] and [alt], its [data-title]
    attribute and the text of its [figcaption], where present. *)
Record Item := mkItem {
  itemSrc : string;
  itemAlt : string;
  datasetTitle : option string;
  figcaption : option string
}.

(** The click listener of the track (lines 662-668); [None] is a click
    outside every item. *)
Definition onTrackClick (clicked : option Item) (m : Modal) : Modal :=
  match clicked with
  | None => m
  | Some item =>
      let title := orElseOpt (datasetTitle item) (orElseOpt (figcaption item) "") in
      openModal (itemSrc item) (itemAlt item) title m
  end.

End Lightbox.

(* ===================================================================== *)
(** ** Carousel: pointer and focus events *)
(* ===================================================================== *)

Module CarouselEvents.
Import Carousel.
Local Open Scope R_scope.

(** What the track reacts to after setup: an animation frame at a given
    time, or one of the four listeners of lines 635-638. *)
Inductive Input :=
| Tick (now : R)
| MouseEnter
| MouseLeave
| FocusIn
| FocusOut.

Definition react (c : Track) (e : Input) : Track :=
  match e with
  | Tick now => step now c
  | MouseEnter | FocusIn => pause c
  | MouseLeave | FocusOut => resume c
  end.

Definition reactAll (es : list Input) (c : Track) : Track := fold_left react es c.

(** Every frame of the sequence comes no earlier than the one before and
    would advance the offset by less than one set width. *)
Fixpoint shortFrames (speed width prev : R) (es : list Input) : Prop :=
  match es with
  | [] => True
  | Tick now :: es' =>
      0 <= now - prev /\ speed * ((now - prev) / 1000) < width /\
      shortFrames speed width now es'
  | _ :: es' => shortFrames speed width prev es'
  end.

End CarouselEvents.

(* ===================================================================== *)
(** ** Contact form: what a submission checks *)
(* ===================================================================== *)

Module FormChecks.
Import JsString Form.

(** Whether the first control named [key] passes [validate]. *)
Definition keyValid (fs : list Field) (key : string) : bool :=
  match querySelectorName key fs 0 with
  | Some i =>
      match fs !! i with
      | Some f => fst (validate (name f) (value f))
      | None => true
      end
  | None => true
  end.

(** Whether every key of the form data passes. *)
Definition allValid (fs : list Field) : bool := forallb (keyValid fs) (formKeys fs).

(** Every control's name can be pasted into the selector [[name="key"]] of
    line 142 as it is, so that the selector finds the first control of that
    name (see [Selector.selectorSafe]). *)
Definition plainNames (fs : list Field) : Prop :=
  Forall (fun f => Selector.selectorSafe (name f) = true) fs.

End FormChecks.

(* ===================================================================== *)
(** * Properties *)
(* ===================================================================== *)

(** ** Strings and the e-mail pattern *)

Module JsStringFacts.
Import JsString.

Lemma trimStart_all_ws (s : jsstring) :
  Forall (fun c => isWhiteSpace c = true) s -> trimStart s = [].
Proof.
  induction 1 as [|c s Hc _ IH]; simpl; [reflexivity|].
  rewrite Hc. exact IH.
Qed.

Lemma trim_all_ws (s : jsstring) :
  Forall (fun c => isWhiteSpace c = true) s -> trim s = [].
Proof.
  intros H. unfold trim, trimEnd. rewrite (trimStart_all_ws s H). reflexivity.
Qed.

Lemma trimStart_app_ws (pre s : jsstring) :
  Forall (fun c => isWhiteSpace c = true) pre -> trimStart (pre ++ s) = trimStart s.
Proof.
  induction 1 as [|c pre Hc _ IH]; simpl; [reflexivity|].
  rewrite Hc. exact IH.
Qed.

Lemma trimStart_head (c : N) (s : jsstring) :
  isWhiteSpace c = false -> trimStart (c :: s) = c :: s.
Proof. intros H. simpl. rewrite H. reflexivity. Qed.

(** [trim] removes exactly the white space around a trimmed core. *)
Lemma trim_core (pre core post : jsstring) :
  Forall (fun c => isWhiteSpace c = true) pre ->
  Forall (fun c => isWhiteSpace c = true) post ->
  trimmed core ->
  trim (pre ++ core ++ post) = core.
Proof.
  intros Hpre Hpost [Hhd Htl].
  unfold trim, trimEnd. rewrite trimStart_app_ws by assumption.
  destruct core as [|c core].
  - simpl. rewrite (trimStart_all_ws post Hpost). reflexivity.
  - change ((c :: core) ++ post) with (c :: (core ++ post)).
    rewrite trimStart_head by (eapply Hhd; reflexivity).
    change (c :: core ++ post) with ((c :: core) ++ post).
    rewrite rev_app_distr.
    rewrite trimStart_app_ws by (apply Forall_rev; assumption).
    destruct (rev (c :: core)) as [|d r] eqn:Hr.
    + apply (f_equal (@rev N)) in Hr. rewrite rev_involutive in Hr. discriminate Hr.
    + rewrite trimStart_head.
      * rewrite <- Hr. apply rev_involutive.
      * apply (Htl d (rev r)).
        apply (f_equal (@rev N)) in Hr. rewrite rev_involutive in Hr.
        rewrite Hr. reflexivity.
Qed.

(** The derivative-based matcher decides membership in the language. *)
Lemma nullable_lang (r : regex) : nullable r = true <-> lang r [].
Proof.
  induction r as [| |p|r1 IH1 r2 IH2|r1 IH1 r2 IH2|r IH]; simpl.
  - split; [discriminate | inversion 1].
  - split; [constructor | reflexivity].
  - split; [discriminate | inversion 1].
  - rewrite andb_true_iff, IH1, IH2. split.
    + intros [H1 H2]. change (@nil N) with (@nil N ++ []). constructor; assumption.
    + inversion 1 as [| |? ? s1 s2 H1 H2| | | |]; subst.
      match goal with Heq : _ ++ _ = [] |- _ => apply app_eq_nil in Heq as [-> ->] end.
      split; assumption.
  - rewrite orb_true_iff, IH1, IH2. split.
    + intros [H|H]; [apply lang_alt_l | apply lang_alt_r]; assumption.
    + inversion 1; subst; [left | right]; assumption.
  - split; [constructor | reflexivity].
Qed.

Lemma lang_star_cons_inv (r : regex) (c : N) (s : jsstring) :
  lang (Star r) (c :: s) ->
  exists s1 s2, s = s1 ++ s2 /\ lang r (c :: s1) /\ lang (Star r) s2.
Proof.
  intros H. remember (Star r) as r' eqn:Hr'. remember (c :: s) as cs eqn:Hcs.
  revert r c s Hr' Hcs.
  induction H as [| | | | | |r0 s1 s2 H1 _ H2 IH2]; intros r' c' s' Hr' Hcs;
    try discriminate.
  inversion Hr'; subst r0.
  destruct s1 as [|d s1].
  - simpl in Hcs. exact (IH2 r' c' s' eq_refl Hcs).
  - simpl in Hcs. inversion Hcs; subst. exists s1, s2. auto.
Qed.

Lemma deriv_lang (r : regex) (c : N) (s : jsstring) :
  lang (deriv c r) s <-> lang r (c :: s).
Proof.
  revert s.
  induction r as [| |p|r1 IH1 r2 IH2|r1 IH1 r2 IH2|r IH]; intros s; simpl.
  - split; inversion 1.
  - split; inversion 1.
  - destruct (p c) eqn:Hp; split.
    + inversion 1; subst. constructor. exact Hp.
    + inversion 1; subst. constructor.
    + inversion 1.
    + inversion 1; subst. congruence.
  - assert (Hseq : lang (Seq (deriv c r1) r2) s -> lang (Seq r1 r2) (c :: s)).
    { inversion 1; subst. change (c :: s1 ++ s2) with ((c :: s1) ++ s2).
      constructor; [apply IH1|]; assumption. }
    assert (Hinv : lang (Seq r1 r2) (c :: s) ->
                   lang (Seq (deriv c r1) r2) s \/ (lang r1 [] /\ lang r2 (c :: s))).
    { inversion 1 as [| |? ? s1 s2 H1 H2| | | |]; subst.
      match goal with Heq : _ ++ _ = _ :: _ |- _ => rename Heq into Heq' end.
      destruct s1 as [|d s1]; simpl in Heq'.
      - right. subst. auto.
      - inversion Heq'; subst. left. constructor; [apply IH1|]; assumption. }
    destruct (nullable r1) eqn:Hn; split.
    + inversion 1; subst; [auto|].
      change (c :: s) with ([] ++ c :: s). constructor.
      * apply nullable_lang. exact Hn.
      * apply IH2. assumption.
    + intros H. destruct (Hinv H) as [H'|[_ H']].
      * apply lang_alt_l. exact H'.
      * apply lang_alt_r. apply IH2. exact H'.
    + exact Hseq.
    + intros H. destruct (Hinv H) as [H'|[H' _]]; [exact H'|].
      apply nullable_lang in H'. congruence.
  - split.
    + inversion 1; subst; [apply lang_alt_l; apply IH1 | apply lang_alt_r; apply IH2];
        assumption.
    + inversion 1; subst; [apply lang_alt_l; apply IH1 | apply lang_alt_r; apply IH2];
        assumption.
  - split.
    + inversion 1; subst. change (c :: s1 ++ s2) with ((c :: s1) ++ s2).
      constructor; [apply IH|]; assumption.
    + intros H. apply lang_star_cons_inv in H as (s1 & s2 & -> & H1 & H2).
      constructor; [apply IH|]; assumption.
Qed.

Lemma matches_lang (r : regex) (s : jsstring) : matches r s = true <-> lang r s.
Proof.
  revert r. induction s as [|c s IH]; intros r; simpl.
  - apply nullable_lang.
  - rewrite IH. apply deriv_lang.
Qed.

End JsStringFacts.

(** ** Contact form *)

Module FormFacts.
Import JsString JsStringFacts Form.

(** C8.  Submitting the contact form with an empty name, the e-mail "bad"
    and the message "hi" shows exactly the three field errors "Name is
    required", "Please enter a valid email address" and "Message must be at
    least 10 characters"; every control keeps the value it had, whatever
    [reset()] would restore (the form is not reset), and no success notice
    is shown. *)
Theorem submit_invalid_shows_three_errors (defaults : jsstring * jsstring * jsstring) :
  let before := contactForm "" "bad" "hi" defaults in
  let after := handleFormSubmit before in
  byId after !! "name-error" = Some (mkErr "Name is required" true) /\
  byId after !! "email-error" = Some (mkErr "Please enter a valid email address" true) /\
  byId after !! "message-error" = Some (mkErr "Message must be at least 10 characters" true) /\
  size (byId after) = 3%nat /\
  map value (fields after) = map value (fields before) /\
  map errorClass (fields after) = [true; true; true] /\
  notices after = 0%nat.
Proof. destruct defaults as [[d1 d2] d3]. vm_compute. repeat split; reflexivity. Qed.

(** The sibling scenario of the spec: a valid submission clears the errors,
    resets the form and shows one success notice. *)
Lemma submit_valid_resets (defaults : jsstring * jsstring * jsstring) :
  let after := handleFormSubmit
                 (contactForm "Al" "a@b.com" "Hello there, this is long enough." defaults) in
  map value (fields after) = [defaults.1.1; defaults.1.2; defaults.2] /\
  map errorClass (fields after) = [false; false; false] /\
  notices after = 1%nat.
Proof. destruct defaults as [[d1 d2] d3]. vm_compute. repeat split; reflexivity. Qed.

Lemma validate_name (v : jsstring) :
  validate "name" v =
    if (length (trim v) =? 0)%nat then (false, "Name is required"%string)
    else if (length (trim v) <? 2)%nat
         then (false, "Name must be at least 2 characters"%string)
         else (true, ""%string).
Proof. reflexivity. Qed.

Lemma validate_message (v : jsstring) :
  validate "message" v =
    if (length (trim v) =? 0)%nat then (false, "Message is required"%string)
    else if (length (trim v) <? 10)%nat
         then (false, "Message must be at least 10 characters"%string)
         else (true, ""%string).
Proof. reflexivity. Qed.

(** C10.  Validation looks at the trimmed value.  An input made of white
    space only gets the "is required" error in each of the three fields;
    and when white space surrounds a non-empty core that neither starts nor
    ends with white space, the minimum lengths of the name (2) and of the
    message (10) are compared with the length of that core alone. *)
Theorem validation_uses_trimmed_value (pre core post : jsstring) :
  Forall (fun c => isWhiteSpace c = true) pre ->
  Forall (fun c => isWhiteSpace c = true) post ->
  trimmed core ->
  core <> [] ->
  validate "name" pre = (false, "Name is required"%string) /\
  validate "email" pre = (false, "Email is required"%string) /\
  validate "message" pre = (false, "Message is required"%string) /\
  validate "name" (pre ++ core ++ post) =
    (if (length core <? 2)%nat
     then (false, "Name must be at least 2 characters"%string)
     else (true, ""%string)) /\
  validate "message" (pre ++ core ++ post) =
    (if (length core <? 10)%nat
     then (false, "Message must be at least 10 characters"%string)
     else (true, ""%string)).
Proof.
  intros Hpre Hpost Hcore Hne.
  assert (Hempty : trim pre = []) by (apply trim_all_ws; exact Hpre).
  assert (Htrim : trim (pre ++ core ++ post) = core) by (apply trim_core; assumption).
  assert (Hlen : (length core =? 0)%nat = false).
  { destruct core; [congruence | reflexivity]. }
  repeat split.
  - rewrite validate_name, Hempty. reflexivity.
  - unfold validate. rewrite Hempty. reflexivity.
  - rewrite validate_message, Hempty. reflexivity.
  - rewrite validate_name, Htrim, Hlen. reflexivity.
  - rewrite validate_message, Htrim, Hlen. reflexivity.
Qed.

(** Twelve spaces as a message are "required", not "too short"; a
    one-letter name padded with blanks is too short. *)
Lemma validation_uses_trimmed_value_witness :
  validate "message" (of_string "            ") = (false, "Message is required"%string) /\
  validate "name" (of_string "            " ++ of_string "A" ++ of_string "  ")
    = (false, "Name must be at least 2 characters"%string).
Proof.
  pose proof (validation_uses_trimmed_value
                (of_string "            ") (of_string "A") (of_string "  ")) as H.
  destruct H as (_ & _ & Hm & Hn & _).
  - repeat constructor.
  - repeat constructor.
  - split; intros c s' Heq.
    + inversion Heq; subst. reflexivity.
    + destruct s' as [|d [|e s']]; inversion Heq; subst. reflexivity.
  - discriminate.
  - split; [exact Hm | exact Hn].
Defined.

End FormFacts.

(** ** Theme *)

Module ThemeFacts.
Import Theme.

(** C9.  From either theme, toggling twice restores [currentTheme]; after
    each toggle the stored [theme] entry is the current theme, so after the
    second one it is the original theme again. *)
Theorem toggle_twice_restores (s : ThemeState) :
  currentTheme s = "dark"%string \/ currentTheme s = "light"%string ->
  currentTheme (toggleTheme (toggleTheme s)) = currentTheme s /\
  localStorage (toggleTheme s) !! "theme"%string = Some (currentTheme (toggleTheme s)) /\
  localStorage (toggleTheme (toggleTheme s)) !! "theme"%string
    = Some (currentTheme (toggleTheme (toggleTheme s))) /\
  localStorage (toggleTheme (toggleTheme s)) !! "theme"%string = Some (currentTheme s).
Proof.
  intros Hs.
  assert (Hstore : forall t, localStorage (toggleTheme t) !! "theme"%string
                             = Some (currentTheme (toggleTheme t))).
  { intros t. unfold toggleTheme. simpl. apply lookup_insert_eq. }
  assert (Hback : currentTheme (toggleTheme (toggleTheme s)) = currentTheme s).
  { unfold toggleTheme. simpl. destruct Hs as [-> | ->]; reflexivity. }
  repeat split.
  - exact Hback.
  - apply Hstore.
  - apply Hstore.
  - rewrite Hstore, Hback. reflexivity.
Qed.

Lemma toggle_twice_restores_witness :
  let s := mkTheme "dark" (Some "dark"%string) (Some Sun) ∅ in
  currentTheme (toggleTheme (toggleTheme s)) = "dark"%string /\
  localStorage (toggleTheme (toggleTheme s)) !! "theme"%string = Some "dark"%string.
Proof.
  intros s.
  destruct (toggle_twice_restores s) as (H1 & _ & _ & H4).
  - left. reflexivity.
  - split; [exact H1 | exact H4].
Defined.

End ThemeFacts.

(** ** Carousel *)

Module CarouselFacts.
Import Carousel.
Local Open Scope R_scope.

Lemma add_gapOk (a b : jsnum) : gapOk a -> gapOk b -> gapOk (add a b).
Proof. destruct a, b; simpl; try tauto. lra. Qed.

Lemma sumWidths_gapOk (gap : jsnum) (len : nat) (widths : list R) :
  Forall (fun w => 0 <= w) widths -> gapOk gap ->
  forall i total, gapOk total -> gapOk (sumWidths gap len i widths total).
Proof.
  intros Hw Hgap. induction Hw as [|w widths Hw0 _ IH]; intros i total Ht; simpl.
  - exact Ht.
  - apply IH. destruct (i <? len - 1)%nat.
    + apply add_gapOk; [apply add_gapOk|]; assumption.
    + apply add_gapOk; assumption.
Qed.

Lemma fallback_zero_or_not_finite (w : jsnum) :
  w = Num 0 \/ isFinite w = false -> fallback w = Num 1000.
Proof.
  intros [-> | H]; unfold fallback.
  - simpl. destruct (Req_dec_T 0 0); [reflexivity | contradiction].
  - rewrite H. rewrite orb_true_r. reflexivity.
Qed.

Lemma fallback_otherwise (w : jsnum) :
  w <> Num 0 -> isFinite w = true -> fallback w = w.
Proof.
  intros Hne Hfin. destruct w as [r| | |]; try discriminate.
  unfold fallback. simpl. destruct (Req_dec_T r 0) as [->|_]; [contradiction|reflexivity].
Qed.

Lemma fallback_finite (w : jsnum) : exists r, fallback w = Num r /\ r <> 0.
Proof.
  destruct w as [r| | |]; unfold fallback; simpl;
    try (exists 1000; split; [reflexivity | lra]).
  destruct (Req_dec_T r 0) as [->|Hr]; simpl.
  - exists 1000. split; [reflexivity | lra].
  - exists r. split; [reflexivity | exact Hr].
Qed.

(** [setup] never meets the impossible case. *)
Lemma setup_defined (widths : list R) (gap : jsnum) (now : R) :
  exists c, setup widths gap now = Some c.
Proof.
  unfold setup. destruct (fallback_finite (measure widths gap)) as (r & -> & _). eauto.
Qed.

(** C5.  Whatever is measured, a sum that is [0] or not finite is replaced
    by exactly 1000 and any other sum is kept; as layout reports no negative
    width or gap, the width used is a positive finite number. *)
Theorem singleSetWidth_fallback (widths : list R) (gap : jsnum) :
  Forall (fun w => 0 <= w) widths ->
  gapOk gap ->
  let measured := measure widths gap in
  (measured = Num 0 \/ isFinite measured = false -> fallback measured = Num 1000) /\
  (measured <> Num 0 -> isFinite measured = true -> fallback measured = measured) /\
  (exists w, fallback measured = Num w /\ 0 < w).
Proof.
  intros Hw Hgap measured. split; [|split].
  - apply fallback_zero_or_not_finite.
  - apply fallback_otherwise.
  - assert (Hm : gapOk measured).
    { apply sumWidths_gapOk; try assumption. simpl. lra. }
    destruct (fallback_finite measured) as (r & Hr & Hne).
    exists r. split; [exact Hr|].
    destruct measured as [m| | |]; unfold fallback in Hr; simpl in Hr, Hm.
    + destruct (Req_dec_T m 0); simpl in Hr; inversion Hr; subst; lra.
    + inversion Hr. lra.
    + inversion Hr. lra.
    + contradiction.
Qed.

Lemma singleSetWidth_fallback_witness :
  fallback (measure [] (Num 16)) = Num 1000 /\
  exists w, fallback (measure [120; 80] NaN) = Num w /\ 0 < w.
Proof.
  split.
  - apply (singleSetWidth_fallback [] (Num 16)).
    + constructor.
    + simpl. lra.
    + left. reflexivity.
  - apply (singleSetWidth_fallback [120; 80] NaN).
    + repeat constructor; lra.
    + exact I.
Defined.

(** One frame while running, spelled out. *)
Lemma step_running (now : R) (c : Track) :
  running c = true ->
  step now c =
    let px1 := px c + pxPerSecond c * ((now - last c) / 1000) in
    let px2 := if Rge_dec px1 (originalTotalWidth c) then px1 - originalTotalWidth c else px1 in
    mkTrack (originalTotalWidth c) (pxPerSecond c) px2 now true (Some (- px2)).
Proof. intros H. unfold step. rewrite H. reflexivity. Qed.

(** With a positive speed and every frame advancing by less than one set
    width, the offset stays in [[0, S)] and differs from the distance
    travelled by a whole number of set widths. *)
Lemma steps_invariant (nows : list R) :
  forall c : Track,
    running c = true ->
    0 < pxPerSecond c ->
    0 <= px c < originalTotalWidth c ->
    Forall (fun dt => 0 < dt /\ pxPerSecond c * dt < originalTotalWidth c)
           (elapsed (last c) nows) ->
    exists k : Z,
      px (steps nows c)
        = px c + pxPerSecond c * total (elapsed (last c) nows)
          - IZR k * originalTotalWidth c /\
      0 <= px (steps nows c) < originalTotalWidth c.
Proof.
  induction nows as [|now nows IH]; intros c Hrun Hspeed Hpx Hok.
  - exists 0%Z. simpl. split; [lra | exact Hpx].
  - simpl in Hok. inversion Hok as [|dt dts [Hdt Hlt] Hrest]; subst.
    assert (Hadv : 0 < pxPerSecond c * ((now - last c) / 1000))
      by (apply Rmult_lt_0_compat; assumption).
    pose proof (step_running now c Hrun) as E. cbv zeta in E.
    change (steps (now :: nows) c) with (steps nows (step now c)).
    change (total (elapsed (last c) (now :: nows)))
      with ((now - last c) / 1000 + total (elapsed now nows)).
    destruct (Rge_dec (px c + pxPerSecond c * ((now - last c) / 1000)) (originalTotalWidth c))
      as [Hge|Hnge];
      (destruct (IH (step now c)) as (k & Hk & Hrange);
       [ rewrite E; reflexivity
       | rewrite E; exact Hspeed
       | rewrite E; simpl; lra
       | rewrite E; simpl; exact Hrest
       | ]).
    + exists (k + 1)%Z. split; [|rewrite E in Hrange; simpl in Hrange; rewrite E; exact Hrange].
      rewrite Hk. rewrite E. simpl. rewrite plus_IZR. lra.
    + exists k. split; [|rewrite E in Hrange; simpl in Hrange; rewrite E; exact Hrange].
      rewrite Hk. rewrite E. simpl. lra.
Qed.

Lemma modulo_unique (x S : R) (k : Z) :
  0 < S -> 0 <= x - IZR k * S < S -> x - IZR k * S = modulo x S.
Proof.
  intros HS [Hlo Hhi]. unfold modulo.
  assert (Hq : x = x / S * S) by (field; lra).
  set (q := x / S) in *.
  assert (Hk : k = Int_part q).
  { apply Int_part_spec. split; nra. }
  rewrite <- Hk. reflexivity.
Qed.

Lemma modulo_zero (S : R) : modulo 0 S = 0.
Proof.
  unfold modulo. replace (0 / S) with 0 by (unfold Rdiv; ring).
  assert (H : Int_part 0 = 0%Z).
  { symmetry. apply Int_part_spec. simpl. lra. }
  rewrite H. simpl. ring.
Qed.

Lemma setup_initial (widths : list R) (gap : jsnum) (now : R) (c : Track) :
  setup widths gap now = Some c ->
  px c = 0 /\ last c = now /\ running c = true /\ 30 <= pxPerSecond c /\
  translateX c = None /\
  fallback (measure widths gap) = Num (originalTotalWidth c) /\
  pxPerSecond c = Rmax 30 (round (originalTotalWidth c / 6)).
Proof.
  unfold setup. destruct (fallback (measure widths gap)) as [w| | |]; try discriminate.
  intros [= <-]. simpl. repeat split; try reflexivity. apply Rmax_l.
Qed.

(** C2.  On the track as [setup] leaves it (offset 0, running), after any
    frames whose elapsed times are positive, advance the offset by less
    than one set width each and sum to [T], the offset is [(speed * T) mod
    S]: the single subtraction does what the modulo would. *)
Theorem offset_is_distance_modulo_width
    (widths : list R) (gap : jsnum) (now0 : R) (c : Track) (nows : list R) :
  setup widths gap now0 = Some c ->
  Forall (fun dt => 0 < dt /\ pxPerSecond c * dt < originalTotalWidth c)
         (elapsed now0 nows) ->
  px (steps nows c)
    = modulo (pxPerSecond c * total (elapsed now0 nows)) (originalTotalWidth c).
Proof.
  intros Hsetup Hok.
  destruct (setup_initial _ _ _ _ Hsetup) as (Hpx & Hlast & Hrun & Hspeed & _).
  destruct nows as [|now nows].
  - simpl. rewrite Hpx, Rmult_0_r, modulo_zero. reflexivity.
  - assert (HS : 0 < originalTotalWidth c).
    { simpl in Hok. apply Forall_inv in Hok as [Hdt Hlt].
      assert (0 < pxPerSecond c * ((now - now0) / 1000))
        by (apply Rmult_lt_0_compat; lra).
      lra. }
    destruct (steps_invariant (now :: nows) c) as (k & Hk & Hrange).
    + exact Hrun.
    + lra.
    + lra.
    + rewrite Hlast. exact Hok.
    + rewrite Hlast, Hpx, Rplus_0_l in Hk.
      rewrite Hk in Hrange |- *.
      apply modulo_unique; assumption.
Qed.

Lemma round_100 : round (600 / 6) = 100.
Proof.
  unfold round. replace (600 / 6 + 0.5) with 100.5 by lra.
  assert (H : 100%Z = Int_part 100.5) by (apply Int_part_spec; simpl; lra).
  rewrite <- H. reflexivity.
Qed.

(** Three frames of 16 ms, 5 s and 2 s on a 600 px set at 100 px/s: 701.6 px
    travelled, offset 101.6. *)
Lemma offset_is_distance_modulo_width_witness :
  exists c, setup [200; 200; 200] (Num 0) 0 = Some c /\
    px (steps [16; 5016; 7016] c) = modulo (100 * 7.016) 600.
Proof.
  destruct (setup_defined [200; 200; 200] (Num 0) 0) as [c Hc].
  exists c. split; [exact Hc|].
  pose proof (offset_is_distance_modulo_width [200; 200; 200] (Num 0) 0 c
                [16; 5016; 7016] Hc) as H.
  assert (Hw : originalTotalWidth c = 600 /\ pxPerSecond c = 100).
  { revert Hc. unfold setup, measure, fallback. simpl.
    replace (0 + 200 + 0 + 200 + 0 + 200) with 600 by lra.
    destruct (Req_dec_T 600 0) as [Hz|_]; [lra|]. simpl.
    intros [= <-]. simpl. split; [reflexivity|].
    rewrite round_100. unfold Rmax. destruct (Rle_dec 30 100); lra. }
  destruct Hw as [HS Hv]. rewrite HS, Hv in H.
  replace (total (elapsed 0 [16; 5016; 7016])) with 7.016 in H by (simpl; lra).
  apply H. simpl. repeat constructor; lra.
Defined.

Lemma last_cons (l : list R) : forall a d, List.last (a :: l) d = List.last l a.
Proof.
  induction l as [|b l IH]; intros a d; [reflexivity|].
  change (List.last (a :: b :: l) d) with (List.last (b :: l) d).
  rewrite (IH b d), (IH b a). reflexivity.
Qed.

Lemma steps_paused (nows : list R) :
  forall c : Track,
    running c = false ->
    steps nows c =
      mkTrack (originalTotalWidth c) (pxPerSecond c) (px c)
              (List.last nows (last c)) false (translateX c).
Proof.
  induction nows as [|now nows IH]; intros c Hrun.
  - simpl. destruct c; simpl in *. subst. reflexivity.
  - change (steps (now :: nows) c) with (steps nows (step now c)).
    assert (E : step now c =
                mkTrack (originalTotalWidth c) (pxPerSecond c) (px c) now false (translateX c)).
    { unfold step. rewrite Hrun. reflexivity. }
    rewrite IH by (rewrite E; reflexivity).
    rewrite E. simpl px. simpl last. rewrite last_cons. reflexivity.
Qed.

(** C6.  After [pause], frames at any times leave the offset (and the
    translation written to the track) as they were at the pause; only the
    time of the previous frame moves on.  After [resume] the next frame
    advances from the frozen offset by the time since the last frame seen,
    with the usual single wrap. *)
Theorem pause_freezes_offset (c : Track) (nows : list R) (now : R) :
  let frozen := steps nows (pause c) in
  let width := originalTotalWidth c in
  let px1 := px c + pxPerSecond c * ((now - List.last nows (last c)) / 1000) in
  px frozen = px c /\
  translateX frozen = translateX c /\
  running frozen = false /\
  last frozen = List.last nows (last c) /\
  px (step now (resume frozen)) = (if Rge_dec px1 width then px1 - width else px1).
Proof.
  intros frozen width px1.
  assert (E : frozen = mkTrack (originalTotalWidth c) (pxPerSecond c) (px c)
                               (List.last nows (last c)) false (translateX c)).
  { unfold frozen. rewrite steps_paused by reflexivity. reflexivity. }
  rewrite E. simpl. repeat split; reflexivity.
Qed.

End CarouselFacts.

(** ** The particle loop and page visibility *)

Module LoopFacts.
Import Particles Loop.

Section WithRandom.
Variable random : nat -> R.

Lemma animate_hidden (env : Env) (s : LoopState) :
  hidden s = true -> animate random env s = s.
Proof. intros H. unfold animate. rewrite H. reflexivity. Qed.

Lemma animate_visible (env : Env) (s : LoopState) :
  hidden s = false ->
  hidden (animate random env s) = false /\
  animationId (animate random env s) = Some (nextHandle s) /\
  rafQueue (animate random env s) = rafQueue s ++ [nextHandle s] /\
  nextHandle (animate random env s) = Pos.succ (nextHandle s).
Proof. intros H. unfold animate. rewrite H. simpl. rewrite H. repeat split. Qed.

(** While the page is hidden a frame never asks for another one. *)
Lemma hidden_frame_does_not_reschedule (env : Env) (s : LoopState) :
  hidden s = true -> rafQueue (handle random s (Frame env)) = [].
Proof.
  intros H. unfold handle.
  generalize (rafQueue s) as due. intros due.
  set (s0 := mkLoop _ _ [] _ _ _ _).
  assert (H0 : hidden s0 = true) by exact H.
  assert (Hq : rafQueue s0 = []) by reflexivity.
  clearbody s0. revert s0 H0 Hq.
  induction due as [|h due IH]; intros s0 H0 Hq; cbn [fold_left]; [exact Hq|].
  rewrite animate_hidden by exact H0. apply IH; assumption.
Qed.

Lemma stopped_handle (s : LoopState) (e : Event) :
  stopped s -> stopped (handle random s e).
Proof.
  intros [Hid Hq]. destruct e as [env | h env]; unfold handle.
  - rewrite Hq. simpl. split; [exact Hid | reflexivity].
  - unfold onVisibilityChange. simpl.
    rewrite (bool_decide_eq_true_2 _ Hid). rewrite andb_false_r.
    split; [exact Hid | exact Hq].
Qed.

Lemma stopped_run (evs : list Event) :
  forall s, stopped s -> stopped (run random evs s).
Proof.
  induction evs as [|e evs IH]; intros s H; [exact H|].
  apply (IH (handle random s e)). apply stopped_handle. exact H.
Qed.

Lemma single_animate_from_empty (env : Env) (s : LoopState) :
  rafQueue s = [] -> single (animate random env s).
Proof.
  intros Hq. destruct (hidden s) eqn:Hh.
  - rewrite animate_hidden by exact Hh. split; rewrite Hq; [simpl; lia | congruence].
  - destruct (animate_visible env s Hh) as (_ & Hid & Hq' & _).
    split.
    + rewrite Hq', Hq. simpl. lia.
    + intros _. rewrite Hid. eauto.
Qed.

Lemma single_handle (s : LoopState) (e : Event) :
  single s -> single (handle random s e).
Proof.
  intros [Hlen Hid]. destruct e as [env | h env]; unfold handle.
  - destruct (rafQueue s) as [|h1 [|h2 due]]; simpl in *.
    + split; simpl; [lia | congruence].
    + apply single_animate_from_empty. reflexivity.
    + lia.
  - unfold onVisibilityChange. simpl.
    destruct h; simpl; [split; assumption|].
    destruct (animationId s) as [id|] eqn:Hid'.
    + rewrite bool_decide_eq_true_2 by eauto. simpl. split; simpl; [exact Hlen|].
      intros _. eauto.
    + rewrite bool_decide_eq_false_2 by (intros [? ?]; discriminate). simpl.
      apply single_animate_from_empty. simpl.
      destruct (rafQueue s) as [|h1 due]; [reflexivity|].
      destruct Hid as [? ?]; [discriminate|discriminate].
Qed.

Lemma single_setup (available isHidden : bool) (env : Env) (k : nat) :
  single (setupThreeJsBackground random available isHidden env k).
Proof.
  unfold setupThreeJsBackground. destruct available.
  - destruct (createParticles random k) as [p k'].
    apply single_animate_from_empty. reflexivity.
  - split; simpl; [lia | congruence].
Qed.

Lemma single_run (evs : list Event) :
  forall s, single s -> single (run random evs s).
Proof.
  induction evs as [|e evs IH]; intros s H; [exact H|].
  apply (IH (handle random s e)). apply single_handle. exact H.
Qed.

(** A page that was hidden when it loaded: the first return of visibility
    starts the loop, once. *)
Lemma first_return_starts_loop (env0 env1 : Env) (k : nat) :
  let s0 := setupThreeJsBackground random true true env0 k in
  rafQueue s0 = [] /\
  rafQueue (handle random s0 (Visibility false env1)) = [1%positive].
Proof.
  unfold setupThreeJsBackground. destruct (createParticles random k) as [p k'].
  unfold startAnimation. rewrite animate_hidden by reflexivity.
  split; [reflexivity|].
  unfold handle, onVisibilityChange, startAnimation.
  cbn [hidden animationId rafQueue nextHandle particles canRender renders].
  rewrite bool_decide_eq_false_2 by (intros [? ?]; discriminate).
  cbn [negb andb].
  match goal with |- rafQueue (animate random env1 ?t) = _ =>
    destruct (animate_visible env1 t eq_refl) as (_ & _ & Hq & _); rewrite Hq
  end.
  reflexivity.
Qed.

Lemma setup_visible_running (env : Env) (k : nat) :
  let s0 := setupThreeJsBackground random true false env k in
  hidden s0 = false /\ animationId s0 = Some 1%positive /\ rafQueue s0 = [1%positive].
Proof.
  unfold setupThreeJsBackground. destruct (createParticles random k) as [p k'].
  unfold startAnimation.
  destruct (animate_visible env (mkLoop false None [] 1%positive (Some p, k') true 0) eq_refl)
    as (Hh & Hid & Hq & _).
  repeat split; assumption.
Qed.

Lemma hidden_frame_keeps (env : Env) (s : LoopState) :
  hidden s = true ->
  hidden (handle random s (Frame env)) = true /\
  animationId (handle random s (Frame env)) = animationId s.
Proof.
  intros H. unfold handle.
  generalize (rafQueue s). intros due.
  set (t := mkLoop _ _ [] _ _ _ _).
  assert (Ht : hidden t = true /\ animationId t = animationId s) by (split; [exact H | reflexivity]).
  clearbody t. revert t Ht.
  induction due as [|h due IH]; intros t [Ht Hi]; cbn [fold_left]; [split; assumption|].
  rewrite animate_hidden by exact Ht. apply IH. split; assumption.
Qed.

Lemma hide_frame_show (env1 env2 env3 : Env) (s0 : LoopState) :
  is_Some (animationId s0) ->
  let s := run random [Visibility true env1; Frame env2; Visibility false env3] s0 in
  hidden s = false /\ stopped s.
Proof.
  intros Hid0 s.
  set (s1 := handle random s0 (Visibility true env1)).
  assert (H1 : hidden s1 = true /\ animationId s1 = animationId s0).
  { unfold s1, handle, onVisibilityChange.
    cbn [hidden animationId rafQueue nextHandle particles canRender renders negb andb].
    split; reflexivity. }
  destruct H1 as (Hh1 & Hid1).
  set (s2 := handle random s1 (Frame env2)).
  assert (H2 : hidden s2 = true /\ animationId s2 = animationId s0 /\ rafQueue s2 = []).
  { destruct (hidden_frame_keeps env2 s1 Hh1) as (Hh & Hi).
    split; [exact Hh|]. split; [rewrite <- Hid1; exact Hi|].
    apply hidden_frame_does_not_reschedule. exact Hh1. }
  destruct H2 as (Hh2 & Hid2 & Hq2).
  assert (Hs : s = handle random s2 (Visibility false env3)) by reflexivity.
  clearbody s s2. subst s.
  unfold handle, onVisibilityChange.
  cbn [hidden animationId rafQueue nextHandle particles canRender renders negb andb].
  rewrite bool_decide_eq_true_2 by (rewrite Hid2; exact Hid0).
  split; [reflexivity|].
  split; cbn [animationId rafQueue]; [rewrite Hid2; exact Hid0 | exact Hq2].
Qed.

(** C4 (the code departs from it).  The page loads visible and the loop is
    running; the page is hidden, the waiting frame finds it hidden and does
    not reschedule; visibility returns.  The listener sees the old handle
    in [state.animationId] and does not restart the loop: no callback is
    waiting, and none will be, whatever happens later. *)
Theorem suspended_loop_is_not_restarted
    (env0 env1 env2 env3 : Env) (k : nat) (later : list Event) :
  let s0 := setupThreeJsBackground random true false env0 k in
  let s := run random [Visibility true env1; Frame env2; Visibility false env3] s0 in
  rafQueue s0 = [1%positive] /\
  hidden s = false /\
  rafQueue s = [] /\
  rafQueue (run random later s) = [].
Proof.
  destruct (setup_visible_running env0 k) as (_ & Hid & Hq).
  destruct (hide_frame_show env1 env2 env3
              (setupThreeJsBackground random true false env0 k)) as (Hh & Hstop).
  { rewrite Hid. eauto. }
  split; [exact Hq|]. split; [exact Hh|]. split; [apply Hstop|].
  apply (stopped_run later _ Hstop).
Qed.

End WithRandom.
End LoopFacts.

(** ** Particle field *)

Module ParticlesFacts.
Import Particles.
Local Open Scope R_scope.

(** *** Writes to the position array *)

Lemma get_write_eq (i : nat) (v : R) (p : Points) :
  (i < length (positions p))%nat -> get (positions (writePosition i v p)) i = v.
Proof.
  intros H. unfold get, writePosition. simpl.
  rewrite list_lookup_insert_eq by exact H. reflexivity.
Qed.

Lemma get_write_ne (i j : nat) (v : R) (p : Points) :
  i <> j -> get (positions (writePosition i v p)) j = get (positions p) j.
Proof.
  intros H. unfold get, writePosition. simpl.
  rewrite list_lookup_insert_ne by exact H. reflexivity.
Qed.

Lemma lookup_write_ne (i j : nat) (v : R) (p : Points) :
  i <> j -> positions (writePosition i v p) !! j = positions p !! j.
Proof. intros H. unfold writePosition. simpl. apply list_lookup_insert_ne. exact H. Qed.

Lemma length_write (i : nat) (v : R) (p : Points) :
  length (positions (writePosition i v p)) = length (positions p).
Proof. unfold writePosition. simpl. apply length_insert. Qed.

Lemma rest_write (i : nat) (v : R) (p : Points) : rest (writePosition i v p) = rest p.
Proof. reflexivity. Qed.

Lemma velocities_write (i : nat) (v : R) (p : Points) :
  velocities (writePosition i v p) = velocities p.
Proof. reflexivity. Qed.

Ltac simpl_writes :=
  repeat first
    [ rewrite velocities_write
    | rewrite rest_write
    | rewrite length_write
    | rewrite get_write_eq by (repeat rewrite length_write; lia)
    | rewrite get_write_ne by lia
    | rewrite lookup_write_ne by lia ].

Ltac simpl_writes_hyps :=
  repeat match goal with
  | H : context [writePosition _ _ _] |- _ =>
      first [ rewrite get_write_eq in H by (repeat rewrite length_write; lia)
            | rewrite get_write_ne in H by lia ]
  end.

(** *** One iteration *)

Lemma integrate_rest env time i p : rest (integrate env time i p) = rest p.
Proof. reflexivity. Qed.

Lemma integrate_length env time i p :
  length (positions (integrate env time i p)) = length (positions p).
Proof. unfold integrate. simpl_writes. reflexivity. Qed.

Lemma integrate_other env time i p j :
  j <> i -> j <> (i + 1)%nat -> j <> (i + 2)%nat ->
  positions (integrate env time i p) !! j = positions p !! j.
Proof. intros. unfold integrate. simpl_writes. reflexivity. Qed.

Lemma integrate_triple env time i p :
  (i + 2 < length (positions p))%nat ->
  triple (positions (integrate env time i p)) i =
    (get (positions p) i + get (velocities p) i + sin (time + INR i * 0.01) * 0.01
       + (mouseX env - innerWidth env / 2) * mouseInfluence,
     get (positions p) (i + 1) + get (velocities p) (i + 1)
       - (mouseY env - innerHeight env / 2) * mouseInfluence,
     get (positions p) (i + 2) + get (velocities p) (i + 2)
       + cos (time + INR i * 0.015) * 0.008).
Proof. intros H. unfold triple, integrate. simpl_writes. reflexivity. Qed.

Section WithRandom.
Variable random : nat -> R.

Lemma respawn_rest i p k : rest (fst (respawn random i (p, k))) = rest p.
Proof. unfold respawn. destruct (Rgt_dec _ _); reflexivity. Qed.

Lemma respawn_length i p k :
  length (positions (fst (respawn random i (p, k)))) = length (positions p).
Proof. unfold respawn. destruct (Rgt_dec _ _); cbn [fst snd]; simpl_writes; reflexivity. Qed.

Lemma respawn_other i p k j :
  j <> i -> j <> (i + 1)%nat -> j <> (i + 2)%nat ->
  positions (fst (respawn random i (p, k))) !! j = positions p !! j.
Proof. intros. unfold respawn. destruct (Rgt_dec _ _); cbn [fst snd]; simpl_writes; reflexivity. Qed.

Lemma respawn_triple i p k :
  (i + 2 < length (positions p))%nat ->
  (triple (positions (fst (respawn random i (p, k)))) i, snd (respawn random i (p, k))) =
    if Rgt_dec (get (positions p) (i + 1)) 15
    then (((random k - 0.5) * 40, -15, (random (k + 1)%nat - 0.5) * 20), (k + 2)%nat)
    else (triple (positions p) i, k).
Proof.
  intros H. unfold respawn. destruct (Rgt_dec _ _); cbn [fst snd]; [|reflexivity].
  unfold triple. simpl_writes. reflexivity.
Qed.

Lemma wrapSides_rest i p : rest (wrapSides i p) = rest p.
Proof.
  unfold wrapSides.
  repeat match goal with |- context [if ?c then _ else _] => destruct c end; reflexivity.
Qed.

Lemma wrapSides_length i p : length (positions (wrapSides i p)) = length (positions p).
Proof.
  unfold wrapSides.
  repeat match goal with |- context [if ?c then _ else _] => destruct c end;
    simpl_writes; reflexivity.
Qed.

Lemma wrapSides_other i p j :
  j <> i -> j <> (i + 2)%nat -> positions (wrapSides i p) !! j = positions p !! j.
Proof.
  intros. unfold wrapSides.
  repeat match goal with |- context [if ?c then _ else _] => destruct c end;
    simpl_writes; reflexivity.
Qed.

Lemma pair_equal_spec_R {A B : Type} (a a' : A) (b b' : B) :
  a = a' -> b = b' -> (a, b) = (a', b').
Proof. intros -> ->. reflexivity. Qed.

Lemma wrapSides_triple i p :
  (i + 2 < length (positions p))%nat ->
  triple (positions (wrapSides i p)) i =
    (wrap 20 (get (positions p) i), get (positions p) (i + 1),
     wrap 10 (get (positions p) (i + 2))).
Proof.
  intros H. unfold triple, wrapSides, wrap.
  repeat match goal with |- context [if ?c then _ else _] => destruct c end;
    simpl_writes; simpl_writes_hyps;
    repeat match goal with H : context [if ?c then _ else _] |- _ => destruct c end;
    try (exfalso; lra);
    repeat apply pair_equal_spec_R; try reflexivity; lra.
Qed.


Lemma body_rest env time i p k : rest (fst (body random env time i (p, k))) = rest p.
Proof.
  unfold body. cbn [fst snd].
  destruct (respawn random i (integrate env time i p, k)) as [q k'] eqn:E.
  cbn [fst]. rewrite wrapSides_rest.
  replace q with (fst (respawn random i (integrate env time i p, k))) by (rewrite E; reflexivity).
  rewrite respawn_rest. apply integrate_rest.
Qed.

Lemma body_length env time i p k :
  length (positions (fst (body random env time i (p, k)))) = length (positions p).
Proof.
  unfold body. cbn [fst snd].
  destruct (respawn random i (integrate env time i p, k)) as [q k'] eqn:E.
  cbn [fst]. rewrite wrapSides_length.
  replace q with (fst (respawn random i (integrate env time i p, k))) by (rewrite E; reflexivity).
  rewrite respawn_length. apply integrate_length.
Qed.

Lemma body_other env time i p k j :
  j <> i -> j <> (i + 1)%nat -> j <> (i + 2)%nat ->
  positions (fst (body random env time i (p, k))) !! j = positions p !! j.
Proof.
  intros H0 H1 H2. unfold body. cbn [fst snd].
  destruct (respawn random i (integrate env time i p, k)) as [q k'] eqn:E.
  cbn [fst]. rewrite wrapSides_other by assumption.
  replace q with (fst (respawn random i (integrate env time i p, k))) by (rewrite E; reflexivity).
  rewrite respawn_other by assumption. apply integrate_other; assumption.
Qed.

(** One iteration acts on the particle at [i] as [advance] says. *)
Lemma body_advance env time i p k :
  (i + 2 < length (positions p))%nat ->
  (triple (positions (fst (body random env time i (p, k)))) i,
   snd (body random env time i (p, k)))
  = advance random env time i k (triple (positions p) i) (triple (velocities p) i).
Proof.
  intros H. unfold body. cbn [fst snd].
  pose proof (integrate_triple env time i p H) as Hint.
  pose proof (integrate_length env time i p) as Hlen0.
  remember (integrate env time i p) as q0 eqn:Hq0. clear Hq0.
  pose proof (respawn_triple i q0 k) as Hre.
  rewrite Hlen0 in Hre. specialize (Hre H).
  pose proof (respawn_length i q0 k) as Hlen1.
  destruct (respawn random i (q0, k)) as [q k'].
  cbn [fst snd] in *.
  rewrite (wrapSides_triple i q) by (rewrite Hlen1, Hlen0; exact H).
  unfold advance, triple in *.
  injection Hint as Hx Hy Hz.
  rewrite Hy in Hre.
  destruct (Rgt_dec _ 15) as [Hgt|Hle];
    injection Hre as Hqx Hqy Hqz Hk; subst k'; rewrite Hqx, Hqy, Hqz.
  - reflexivity.
  - rewrite ?Hx, ?Hy, ?Hz. reflexivity.
Qed.

(** *** The loop over all particles *)

Lemma fold_left_map_index {A B C : Type} (f : A -> B -> A) (g : C -> B) (l : list C) :
  forall a, fold_left f (map g l) a = fold_left (fun a x => f a (g x)) l a.
Proof. induction l as [|x l IH]; intros a; simpl; [reflexivity | apply IH]. Qed.

Lemma fold_seq_invariant {A : Type} (f : A -> nat -> A) (Inv : nat -> A -> Prop) (n : nat) :
  forall s a,
    Inv s a ->
    (forall i a, (s <= i < s + n)%nat -> Inv i a -> Inv (S i) (f a i)) ->
    Inv (s + n)%nat (fold_left f (seq s n) a).
Proof.
  induction n as [|n IH]; intros s a H0 Hstep; simpl.
  - rewrite Nat.add_0_r. exact H0.
  - replace (s + S n)%nat with (S s + n)%nat by lia.
    apply IH.
    + apply Hstep; [lia | exact H0].
    + intros i b Hi. apply Hstep. lia.
Qed.

Lemma fold_left_preserves {A B : Type} (f : A -> B -> A) (P : A -> Prop) (l : list B) :
  (forall a b, P a -> P (f a b)) -> forall a, P a -> P (fold_left f l a).
Proof.
  intros Hstep. induction l as [|b l IH]; intros a Ha; simpl; [exact Ha|].
  apply IH. apply Hstep. exact Ha.
Qed.

Lemma strideIndices_triples (n : nat) :
  strideIndices (3 * n) = map (fun j => (3 * j)%nat) (seq 0 n).
Proof.
  unfold strideIndices. f_equal. f_equal.
  replace (3 * n + 2)%nat with (2 + n * 3)%nat by lia.
  rewrite Nat.div_add by lia. reflexivity.
Qed.

(** When the array holds whole triples the loop reads inside it. *)
Lemma strideIndices_in_range (n i : nat) :
  In i (strideIndices (3 * n)) -> (i + 2 < 3 * n)%nat.
Proof.
  rewrite strideIndices_triples. rewrite in_map_iff.
  intros (j & <- & Hj). apply in_seq in Hj. lia.
Qed.

Lemma triple_lookup (a b : list R) (i : nat) :
  (forall m, (i <= m)%nat -> a !! m = b !! m) -> triple a i = triple b i.
Proof.
  intros H. unfold triple, get.
  rewrite (H i), (H (i + 1)%nat), (H (i + 2)%nat) by lia. reflexivity.
Qed.

Lemma triple_other (a b : list R) (i : nat) :
  a !! i = b !! i -> a !! (i + 1)%nat = b !! (i + 1)%nat ->
  a !! (i + 2)%nat = b !! (i + 2)%nat -> triple a i = triple b i.
Proof. intros H0 H1 H2. unfold triple, get. rewrite H0, H1, H2. reflexivity. Qed.

(** After the loop, particle [j] is what [advance] makes of its state
    before the loop, for the count [kj] of random draws reached when the
    loop got to it; nothing but [positions] has changed. *)
Lemma loop_particle env time (n j : nat) (p : Points) (k : nat) :
  length (positions p) = (3 * n)%nat ->
  (j < n)%nat ->
  let w := fold_left (fun w i => body random env time i w) (strideIndices (3 * n)) (p, k) in
  rest (fst w) = rest p /\
  length (positions (fst w)) = (3 * n)%nat /\
  exists kj,
    triple (positions (fst w)) (3 * j) =
      fst (advance random env time (3 * j) kj
             (triple (positions p) (3 * j)) (triple (velocities p) (3 * j))).
Proof.
  intros Hlen Hj w. unfold w. clear w.
  rewrite strideIndices_triples, fold_left_map_index.
  pose (Inv := fun (i : nat) (w : Points * nat) =>
    rest (fst w) = rest p /\
    length (positions (fst w)) = (3 * n)%nat /\
    (forall m, (3 * i <= m)%nat -> positions (fst w) !! m = positions p !! m) /\
    ((j < i)%nat -> exists kj,
       triple (positions (fst w)) (3 * j) =
         fst (advance random env time (3 * j) kj
                (triple (positions p) (3 * j)) (triple (velocities p) (3 * j))))).
  assert (H : Inv (0 + n)%nat
                (fold_left (fun a x => body random env time (3 * x) a) (seq 0 n) (p, k))).
  { apply (fold_seq_invariant (fun a x => body random env time (3 * x) a) Inv).
    - repeat split; try reflexivity; [exact Hlen | lia].
    - intros i [q c] Hi (Hrest & Hl & Hsame & Hdone). unfold Inv.
      cbn [fst] in Hrest, Hl, Hsame, Hdone.
      split; [rewrite body_rest; exact Hrest|].
      split; [rewrite body_length; exact Hl|].
      split.
      + intros m Hm. rewrite body_other by lia. apply Hsame. lia.
      + intros Hji. destruct (decide (j = i)) as [->|Hne].
        * exists c.
          pose proof (body_advance env time (3 * i) q c) as Hadv.
          rewrite Hl in Hadv. specialize (Hadv ltac:(lia)).
          apply (f_equal fst) in Hadv. cbn [fst] in Hadv. rewrite Hadv.
          assert (Hv : velocities q = velocities p).
          { unfold rest in Hrest. congruence. }
          rewrite Hv. rewrite (triple_lookup (positions q) (positions p) (3 * i) Hsame).
          reflexivity.
        * destruct Hdone as [kj Hkj]; [lia|]. exists kj. rewrite <- Hkj.
          apply triple_other; apply body_other; lia. }
  destruct H as (Hrest & Hl & _ & Hdone).
  split; [exact Hrest|]. split; [exact Hl|]. apply Hdone. lia.
Qed.


(** *** A frame *)

Lemma body_keeps env time i (w : Points * nat) :
  rest (fst (body random env time i w)) = rest (fst w) /\
  length (positions (fst (body random env time i w))) = length (positions (fst w)).
Proof. destruct w as [p k]. split; [apply body_rest | apply body_length]. Qed.

(** A frame on a field of particles yields a field again; it changes
    nothing but positions, the time uniform and the upload flag. *)
Lemma animate_keeps env p k :
  exists q k',
    animateParticles random env (Some p, k) = (Some q, k') /\
    velocities q = velocities p /\ sizes q = sizes p /\ colors q = colors p /\
    length (positions q) = length (positions p).
Proof.
  unfold animateParticles.
  set (p1 := mkPoints (positions p) (velocities p) (sizes p) (colors p)
                      (dateNow env * 0.001) (needsUpdate p)).
  assert (H : rest (fst (fold_left (fun w i => body random env (dateNow env * 0.001) i w)
                           (strideIndices (length (positions p1))) (p1, k))) = rest p1 /\
              length (positions (fst (fold_left
                           (fun w i => body random env (dateNow env * 0.001) i w)
                           (strideIndices (length (positions p1))) (p1, k))))
                = length (positions p1)).
  { apply (fold_left_preserves _
             (fun w => rest (fst w) = rest p1 /\
                       length (positions (fst w)) = length (positions p1))).
    - intros a b [Ha Hb]. destruct (body_keeps env (dateNow env * 0.001) b a) as [H1 H2].
      split; congruence.
    - split; reflexivity. }
  destruct (fold_left _ _ (p1, k)) as [q k'].
  destruct H as [Hrest Hl]. cbn [fst] in Hrest, Hl.
  exists (mkPoints (positions q) (velocities q) (sizes q) (colors q) (timeUniform q) true), k'.
  unfold rest in Hrest. injection Hrest as Hv Hs Hc _ _.
  repeat split; assumption.
Qed.

Lemma animate_particle env (n j : nat) p k :
  length (positions p) = (3 * n)%nat ->
  (j < n)%nat ->
  exists q k' kj,
    animateParticles random env (Some p, k) = (Some q, k') /\
    velocities q = velocities p /\
    length (positions q) = (3 * n)%nat /\
    triple (positions q) (3 * j) =
      fst (advance random env (dateNow env * 0.001) (3 * j) kj
             (triple (positions p) (3 * j)) (triple (velocities p) (3 * j))).
Proof.
  intros Hlen Hj. unfold animateParticles.
  set (p1 := mkPoints (positions p) (velocities p) (sizes p) (colors p)
                      (dateNow env * 0.001) (needsUpdate p)).
  change (length (positions p1)) with (length (positions p)). rewrite Hlen.
  destruct (loop_particle env (dateNow env * 0.001) n j p1 k Hlen Hj) as (Hrest & Hl & kj & Hkj).
  destruct (fold_left _ _ (p1, k)) as [q k'].
  cbn [fst] in Hrest, Hl, Hkj.
  exists (mkPoints (positions q) (velocities q) (sizes q) (colors q) (timeUniform q) true), k', kj.
  unfold rest in Hrest. injection Hrest as Hv _ _ _ _.
  repeat split; assumption.
Qed.

Lemma frames_keep (envs : list Env) :
  forall p k,
  exists q k',
    frames random envs (Some p, k) = (Some q, k') /\
    velocities q = velocities p /\ sizes q = sizes p /\ colors q = colors p /\
    length (positions q) = length (positions p).
Proof.
  induction envs as [|env envs IH]; intros p k.
  - exists p, k. repeat split; reflexivity.
  - destruct (animate_keeps env p k) as (q1 & k1 & E1 & Hv1 & Hs1 & Hc1 & Hl1).
    destruct (IH q1 k1) as (q & k' & E & Hv & Hs & Hc & Hl).
    exists q, k'. unfold frames in *. cbn [fold_left]. rewrite E1.
    repeat split; congruence.
Qed.

(** *** Creation *)

Lemma create_particle (k j : nat) :
  (j < particleCount)%nat ->
  let created := createParticles random k in
  length (positions (fst created)) = (3 * particleCount)%nat /\
  length (velocities (fst created)) = (3 * particleCount)%nat /\
  triple (positions (fst created)) (3 * j) =
    ((random (k + 8 * j)%nat - 0.5) * 40,
     random (k + 8 * j + 1)%nat * 30 - 15,
     (random (k + 8 * j + 2)%nat - 0.5) * 20) /\
  triple (velocities (fst created)) (3 * j) =
    ((random (k + 8 * j + 3)%nat - 0.5) * 0.02,
     random (k + 8 * j + 4)%nat * 0.03 + 0.01,
     (random (k + 8 * j + 5)%nat - 0.5) * 0.015).
Proof.
  intros Hj created. unfold created, createParticles. clear created.
  set (blank := mkPoints _ _ _ _ _ _).
  pose (Inv := fun (i : nat) (w : Points * nat) =>
    snd w = (k + 8 * i)%nat /\
    length (positions (fst w)) = (3 * particleCount)%nat /\
    length (velocities (fst w)) = (3 * particleCount)%nat /\
    ((j < i)%nat ->
       triple (positions (fst w)) (3 * j) =
         ((random (k + 8 * j)%nat - 0.5) * 40,
          random (k + 8 * j + 1)%nat * 30 - 15,
          (random (k + 8 * j + 2)%nat - 0.5) * 20) /\
       triple (velocities (fst w)) (3 * j) =
         ((random (k + 8 * j + 3)%nat - 0.5) * 0.02,
          random (k + 8 * j + 4)%nat * 0.03 + 0.01,
          (random (k + 8 * j + 5)%nat - 0.5) * 0.015))).
  assert (H : Inv (0 + particleCount)%nat
                (fold_left (fun w i => createBody random i w) (seq 0 particleCount) (blank, k))).
  { apply (fold_seq_invariant (fun w i => createBody random i w) Inv).
    - unfold Inv, blank. cbn [fst snd positions velocities].
      rewrite !length_replicate. repeat split; try lia.
    - intros i [q c] Hi (Hc & Hlp & Hlv & Hdone). cbn [fst snd] in Hc, Hlp, Hlv, Hdone.
      subst c. unfold particleCount in Hi.
      assert (Hpos : positions (fst (createBody random i (q, (k + 8 * i)%nat))) =
                <[(i * 3 + 2)%nat := (random (k + 8 * i + 2)%nat - 0.5) * 20]>
                  (<[(i * 3 + 1)%nat := random (k + 8 * i + 1)%nat * 30 - 15]>
                     (<[(i * 3)%nat := (random (k + 8 * i)%nat - 0.5) * 40]> (positions q)))).
      { unfold createBody.
        repeat match goal with |- context [if ?c then _ else _] => destruct c end;
          reflexivity. }
      assert (Hvel : velocities (fst (createBody random i (q, (k + 8 * i)%nat))) =
                <[(i * 3 + 2)%nat := (random (k + 8 * i + 5)%nat - 0.5) * 0.015]>
                  (<[(i * 3 + 1)%nat := random (k + 8 * i + 4)%nat * 0.03 + 0.01]>
                     (<[(i * 3)%nat := (random (k + 8 * i + 3)%nat - 0.5) * 0.02]>
                        (velocities q)))).
      { unfold createBody.
        repeat match goal with |- context [if ?c then _ else _] => destruct c end;
          reflexivity. }
      assert (Hcnt : snd (createBody random i (q, (k + 8 * i)%nat)) = (k + 8 * S i)%nat).
      { unfold createBody. cbn [snd]. lia. }
      unfold Inv. rewrite Hpos, Hvel, Hcnt, !length_insert.
      split; [reflexivity|]. split; [exact Hlp|]. split; [exact Hlv|].
      intros Hji. unfold triple, get.
      destruct (decide (j = i)) as [->|Hne].
      + replace (3 * i)%nat with (i * 3)%nat by lia.
        unfold particleCount in Hlp, Hlv.
        repeat first
          [ rewrite list_lookup_insert_eq by (rewrite ?length_insert; lia)
          | rewrite list_lookup_insert_ne by lia ].
        split; reflexivity.
      + destruct Hdone as [Hp Hv]; [lia|].
        rewrite !list_lookup_insert_ne by lia.
        split; [exact Hp | exact Hv]. }
  destruct H as (_ & Hlp & Hlv & Hdone).
  split; [exact Hlp|]. split; [exact Hlv|]. apply Hdone. lia.
Qed.


(** *** What a frame does to one particle *)

Lemma wrap_range (bound v : R) : 0 <= bound -> - bound <= wrap bound v <= bound.
Proof.
  intros Hb. unfold wrap.
  destruct (Rgt_dec v bound); destruct (Rlt_dec _ (- bound)); lra.
Qed.

Lemma wrap_inside (bound v : R) : - bound <= v <= bound -> wrap bound v = v.
Proof.
  intros Hv. unfold wrap.
  destruct (Rgt_dec v bound); destruct (Rlt_dec _ (- bound)); lra.
Qed.

(** After a frame x and z are inside their bounds and y is not above the
    top; nothing bounds y from below. *)
Lemma advance_bounds env time i k pos vel :
  let '(x, y, z) := fst (advance random env time i k pos vel) in
  -20 <= x <= 20 /\ y <= 15 /\ -10 <= z <= 10.
Proof.
  destruct pos as [[x y] z], vel as [[vx vy] vz]. unfold advance.
  destruct (Rgt_dec _ 15) as [Hgt|Hle]; cbn [fst];
    (split; [|split]);
    try (pose proof (wrap_range 20 ((random k - 0.5) * 40)));
    try (pose proof (wrap_range 10 ((random (k + 1)%nat - 0.5) * 20)));
    try match goal with |- _ <= wrap ?b ?v <= _ => pose proof (wrap_range b v) end;
    lra.
Qed.

Lemma animate_particle_y env (n j : nat) p k :
  length (positions p) = (3 * n)%nat ->
  (j < n)%nat ->
  let y1 := get (positions p) (3 * j + 1) + get (velocities p) (3 * j + 1)
            - (mouseY env - innerHeight env / 2) * mouseInfluence in
  exists q k',
    animateParticles random env (Some p, k) = (Some q, k') /\
    velocities q = velocities p /\
    length (positions q) = (3 * n)%nat /\
    get (positions q) (3 * j + 1) = (if Rgt_dec y1 15 then -15 else y1).
Proof.
  intros Hlen Hj y1.
  destruct (animate_particle env n j p k Hlen Hj) as (q & k' & kj & E & Hv & Hl & Ht).
  exists q, k'. repeat split; try assumption.
  unfold advance, triple in Ht. fold y1 in Ht.
  destruct (Rgt_dec y1 15); cbn [fst] in Ht; injection Ht as _ Hy _; exact Hy.
Qed.

(** After a frame every particle has x and z inside their bounds and y
    not above the top. *)
Lemma animate_particle_bounds env (n j : nat) p k :
  length (positions p) = (3 * n)%nat ->
  (j < n)%nat ->
  exists q k',
    animateParticles random env (Some p, k) = (Some q, k') /\
    -20 <= get (positions q) (3 * j) <= 20 /\
    get (positions q) (3 * j + 1) <= 15 /\
    -10 <= get (positions q) (3 * j + 2) <= 10.
Proof.
  intros Hlen Hj.
  destruct (animate_particle env n j p k Hlen Hj) as (q & k' & kj & E & _ & _ & Ht).
  exists q, k'. split; [exact E|].
  pose proof (advance_bounds env (dateNow env * 0.001) (3 * j) kj
                (triple (positions p) (3 * j)) (triple (velocities p) (3 * j))) as Hb.
  rewrite <- Ht in Hb. exact Hb.
Qed.

(** With the pointer low enough to outweigh the particle's rise, every
    frame lowers y by the same amount and nothing ever brings it back. *)
Lemma frames_sink env (n j : nat) (count : nat) :
  forall p k,
    length (positions p) = (3 * n)%nat ->
    (j < n)%nat ->
    let d := get (velocities p) (3 * j + 1)
             - (mouseY env - innerHeight env / 2) * mouseInfluence in
    d <= 0 ->
    get (positions p) (3 * j + 1) <= 15 ->
    exists q k',
      frames random (replicate count env) (Some p, k) = (Some q, k') /\
      velocities q = velocities p /\
      length (positions q) = (3 * n)%nat /\
      get (positions q) (3 * j + 1) = get (positions p) (3 * j + 1) + INR count * d.
Proof.
  induction count as [|count IH]; intros p k Hlen Hj d Hd Hy.
  - exists p, k. simpl. repeat split; try reflexivity; try assumption. lra.
  - destruct (animate_particle_y env n j p k Hlen Hj) as (q1 & k1 & E1 & Hv1 & Hl1 & Hy1).
    fold d in Hy1.
    replace (get (positions p) (3 * j + 1) + get (velocities p) (3 * j + 1)
             - (mouseY env - innerHeight env / 2) * mouseInfluence)
      with (get (positions p) (3 * j + 1) + d) in Hy1 by (unfold d; lra).
    destruct (Rgt_dec (get (positions p) (3 * j + 1) + d) 15) as [Hgt|_]; [lra|].
    destruct (IH q1 k1 Hl1 Hj) as (q & k' & E & Hv & Hl & Hyq).
    + rewrite Hv1. exact Hd.
    + rewrite Hy1. lra.
    + exists q, k'. unfold frames in *. cbn [replicate fold_left]. rewrite E1.
      split; [exact E|]. split; [congruence|]. split; [exact Hl|].
      rewrite Hyq, Hy1, Hv1. fold d. rewrite S_INR. lra.
Qed.

(** C7.  Whatever the frames, the velocity, size and colour arrays of the
    field are those [createParticles] made. *)
Theorem frames_keep_velocity_size_color (k : nat) (envs : list Env) :
  let created := createParticles random k in
  exists q k',
    frames random envs (Some (fst created), snd created) = (Some q, k') /\
    velocities q = velocities (fst created) /\
    sizes q = sizes (fst created) /\
    colors q = colors (fst created).
Proof.
  cbv zeta. generalize (createParticles random k). intros [p k0]. cbn [fst snd].
  destruct (frames_keep envs p k0) as (q & k' & E & Hv & Hs & Hc & _).
  exists q, k'. repeat split; assumption.
Qed.

(** C3 (as the code has it).  In a frame, for the particle at flat index
    [i = 3j] that is not sent back to the bottom, the new x is the old x
    plus its velocity, plus [sin(time + i * 0.01) * 0.01], plus the
    parallax, wrapped at 20; the new z is the old z plus its velocity plus
    [cos(time + i * 0.015) * 0.008], wrapped at 10.  [time] is
    [Date.now() * 0.001]; the phase is the buffer index, not a coordinate. *)
Theorem drift_phase_is_buffer_index env (n j : nat) p k :
  length (positions p) = (3 * n)%nat ->
  (j < n)%nat ->
  let i := (3 * j)%nat in
  let time := dateNow env * 0.001 in
  ~ (get (positions p) (i + 1) + get (velocities p) (i + 1)
     - (mouseY env - innerHeight env / 2) * mouseInfluence > 15) ->
  exists q k',
    animateParticles random env (Some p, k) = (Some q, k') /\
    get (positions q) i =
      wrap 20 (get (positions p) i + get (velocities p) i
               + sin (time + INR i * 0.01) * 0.01
               + (mouseX env - innerWidth env / 2) * mouseInfluence) /\
    get (positions q) (i + 2) =
      wrap 10 (get (positions p) (i + 2) + get (velocities p) (i + 2)
               + cos (time + INR i * 0.015) * 0.008).
Proof.
  intros Hlen Hj i time Hstay.
  destruct (animate_particle env n j p k Hlen Hj) as (q & k' & kj & E & _ & _ & Ht).
  exists q, k'. split; [exact E|].
  unfold advance, triple in Ht. fold i time in Ht.
  destruct (Rgt_dec _ 15) as [Hgt|_]; [contradiction|].
  cbn [fst] in Ht. injection Ht as Hx _ Hz. split; assumption.
Qed.

End WithRandom.

Lemma INR_3 : INR 3 = 3.
Proof. simpl. lra. Qed.

(** A frame at time 0 with the pointer in the middle of a 1000 by 1000
    window, on a field where every random draw was one half: all particles
    start at the origin with velocity (0, 0.025, 0). *)
Lemma half_field_particle (j : nat) :
  (j < particleCount)%nat ->
  let created := createParticles (fun _ => 0.5) 0 in
  length (positions (fst created)) = (3 * particleCount)%nat /\
  triple (positions (fst created)) (3 * j) = (0, 0, 0) /\
  triple (velocities (fst created)) (3 * j) = (0, 0.025, 0).
Proof.
  intros Hj created.
  destruct (create_particle (fun _ => 0.5) 0 j Hj) as (Hl & _ & Hp & Hv).
  fold created in Hl, Hp, Hv.
  split; [exact Hl|]. split.
  - rewrite Hp. repeat apply pair_equal_spec_R; lra.
  - rewrite Hv. repeat apply pair_equal_spec_R; lra.
Qed.

Lemma drift_phase_is_buffer_index_witness :
  let p := mkPoints [0; 0; 0; 1; 2; 3; -4; 5; 6]
                    [0; 0.01; 0; 0.01; 0.02; 0.005; -0.01; 0.03; 0.004]
                    [1; 2; 3] [1; 1; 1; 1; 1; 1; 1; 1; 1] 0 false in
  let env := mkEnv 1000 600 400 1000 1000 in
  exists q k',
    animateParticles (fun _ => 0.5) env (Some p, 0%nat) = (Some q, k') /\
    get (positions q) 6 = -3.98 + sin 1.06 * 0.01 /\
    get (positions q) 8 = 6.004 + cos 1.09 * 0.008 /\
    0 < sin 1.06 /\
    0 < cos 1.09.
Proof.
  intros p env.
  destruct (drift_phase_is_buffer_index (fun _ => 0.5) env 3 2 p 0) as (q & k' & E & Hx & Hz).
  - reflexivity.
  - lia.
  - change (get (positions p) (3 * 2 + 1)) with 5.
    change (get (velocities p) (3 * 2 + 1)) with 0.03.
    change (mouseY env) with 400. change (innerHeight env) with 1000.
    unfold mouseInfluence. lra.
  - change (3 * 2)%nat with 6%nat in Hx, Hz.
    change (get (positions p) 6) with (-4) in Hx.
    change (get (velocities p) 6) with (-0.01) in Hx.
    change (get (positions p) (6 + 2)) with 6 in Hz.
    change (get (velocities p) (6 + 2)) with 0.004 in Hz.
    change (mouseX env) with 600 in Hx. change (innerWidth env) with 1000 in Hx.
    change (dateNow env) with 1000 in Hx, Hz.
    assert (H6 : INR 6 = 6) by (simpl; lra).
    rewrite H6 in Hx, Hz.
    replace (1000 * 0.001 + 6 * 0.01) with 1.06 in Hx by lra.
    replace (1000 * 0.001 + 6 * 0.015) with 1.09 in Hz by lra.
    unfold mouseInfluence in Hx.
    pose proof (SIN_bound 1.06) as Hs. pose proof (COS_bound 1.09) as Hc.
    rewrite wrap_inside in Hx by lra. rewrite wrap_inside in Hz by lra.
    pose proof PI2_3_2 as Hpi. pose proof PI2_Rlt_PI as Hpi'.
    exists q, k'. split; [exact E|].
    split; [rewrite Hx; lra|].
    split; [change (6 + 2)%nat with 8%nat in Hz; rewrite Hz; lra|].
    split; [apply sin_gt_0; lra | apply cos_gt_0; lra].
Defined.


(** C3 (as the spec words it) fails.  On that field, in a frame at time 0
    with the pointer in the middle of the window, particle 1 (flat index 3,
    at y = 0, rising by 0.025) is neither sent back nor wrapped; what the
    frame adds to its x beyond velocity and parallax is [sin 0.03 * 0.01],
    which is neither [sin(t + y * 0.01) * 0.01] for the y before the frame
    nor for the y after the velocity step; what it adds to its z beyond
    velocity is [cos 0.045 * 0.008], which is not [cos(t + x * 0.015) *
    0.008] for the x before or after the frame. *)
Lemma drift_phase_is_not_a_coordinate :
  let random := fun _ : nat => 0.5 in
  let env := mkEnv 0 500 500 1000 1000 in
  let created := createParticles random 0 in
  let p := fst created in
  let t := dateNow env * 0.001 in
  exists q k',
    animateParticles random env (Some p, snd created) = (Some q, k') /\
    let added := get (positions q) 3
                 - (get (positions p) 3 + get (velocities p) 3
                    + (mouseX env - innerWidth env / 2) * mouseInfluence) in
    let addedZ := get (positions q) 5 - (get (positions p) 5 + get (velocities p) 5) in
    added <> specDriftX t (get (positions p) 4) /\
    added <> specDriftX t (get (positions p) 4 + get (velocities p) 4) /\
    addedZ <> specDriftZ t (get (positions p) 3) /\
    addedZ <> specDriftZ t (get (positions q) 3).
Proof.
  intros random env created p t.
  pose proof (half_field_particle 1 ltac:(unfold particleCount; lia)) as H.
  cbv zeta in H. change (createParticles (fun _ => 0.5) 0) with created in H.
  change (fst created) with p in H. destruct H as (Hl & Hp & Hv).
  clearbody p. clearbody created.
  destruct (animate_particle random env particleCount 1 p (snd created) Hl
              ltac:(unfold particleCount; lia))
    as (q & k' & kj & E & _ & _ & Ht).
  exists q, k'. split; [exact E|].
  rewrite Hp, Hv in Ht.
  unfold triple in Hp, Hv, Ht. cbn [Nat.mul Nat.add] in Hp, Hv, Ht.
  injection Hp as Hx Hy Hz. injection Hv as Hvx Hvy Hvz.
  unfold advance in Ht. cbn [mouseX mouseY innerWidth innerHeight env] in Ht.
  unfold mouseInfluence in *. fold t in Ht.
  match type of Ht with context [Rgt_dec ?a 15] =>
    destruct (Rgt_dec a 15) as [Hgt|_]; [exfalso; lra|]
  end.
  cbn [fst] in Ht. injection Ht as Hqx _ Hqz.
  match type of Hqx with context [sin ?a] =>
    replace a with 0.03 in Hqx by (unfold t; cbn [dateNow env]; rewrite ?INR_3; lra)
  end.
  match type of Hqz with context [cos ?a] =>
    replace a with 0.045 in Hqz by (unfold t; cbn [dateNow env]; rewrite ?INR_3; lra)
  end.
  pose proof (SIN_bound 0.03) as Hb.
  pose proof (COS_bound 0.045) as Hbz.
  rewrite wrap_inside in Hqx by lra.
  rewrite wrap_inside in Hqz by lra.
  cbn [mouseX innerWidth env]. rewrite Hqz, Hqx, Hx, Hy, Hz, Hvx, Hvy, Hvz.
  unfold specDriftX, specDriftZ, t. cbn [dateNow env].
  replace (0 * 0.001 + 0 * 0.01) with 0 by lra.
  replace (0 * 0.001 + (0 + 0.025) * 0.01) with 0.00025 by lra.
  replace (0 * 0.001 + 0 * 0.015) with 0 by lra.
  pose proof PI2_1 as Hpi. pose proof PI2_Rlt_PI as Hpi'.
  assert (H0 : sin 0 < sin 0.03) by (apply sin_increasing_1; lra).
  assert (H1 : sin 0.00025 < sin 0.03) by (apply sin_increasing_1; lra).
  assert (H2 : cos 0.045 < cos 0) by (apply cos_decreasing_1; lra).
  assert (Hs0 : 0 < sin 0.03) by (apply sin_gt_0; lra).
  assert (H3 : cos 0.045 < cos (0 * 0.001 + (0 + 0 + sin 0.03 * 0.01 + (500 - 1000 / 2) * 0.0003) * 0.015)).
  { apply cos_decreasing_1; lra. }
  repeat split; lra.
Qed.

(** C1 (the code departs from it).  On the same field, 200 frames with the
    pointer at the bottom edge of a 1000 px high window: each frame moves
    particle 0 up by 0.025 and down by 0.15; it starts at y = 0 and ends at
    y = -25, below the lower bound -15, and no branch of the loop brings it
    back. *)
Theorem particle_sinks_below_the_field :
  let random := fun _ : nat => 0.5 in
  let env := mkEnv 1700000000000 500 1000 1000 1000 in
  let created := createParticles random 0 in
  get (positions (fst created)) 1 = 0 /\
  exists q k',
    frames random (replicate 200 env) (Some (fst created), snd created) = (Some q, k') /\
    get (positions q) 1 = -25.
Proof.
  intros random env created.
  pose proof (half_field_particle 0 ltac:(unfold particleCount; lia)) as H.
  cbv zeta in H. change (createParticles (fun _ => 0.5) 0) with created in H.
  destruct H as (Hl & Hp & Hv). clearbody created.
  unfold triple in Hp, Hv. cbn [Nat.mul Nat.add] in Hp, Hv.
  injection Hp as _ Hy _. injection Hv as _ Hvy _.
  split; [exact Hy|].
  destruct (frames_sink random env particleCount 0 200 (fst created) (snd created) Hl
              ltac:(unfold particleCount; lia)) as (q & k' & E & _ & _ & Hq).
  - cbn [Nat.mul Nat.add]. rewrite Hvy. unfold mouseInfluence, env. simpl. lra.
  - cbn [Nat.mul Nat.add]. rewrite Hy. lra.
  - exists q, k'. split; [exact E|].
    cbn [Nat.mul Nat.add] in Hq. rewrite Hq, Hy, Hvy.
    rewrite INR_IZR_INZ. unfold mouseInfluence, env.
    cbn [mouseY innerHeight]. change (Z.of_nat 200) with 200%Z. lra.
Qed.

End ParticlesFacts.

(** ** Typewriter *)

Module TypewriterFacts.
Import Typewriter.

Lemma typing_state (old : list ascii) (index : nat) (typing : bool) (k : nat) :
  fireTimes k (setupTypewriter (mkTyping (Some old) index typing 0)) =
    if (k <=? length TYPEWRITER_TEXT)%nat
    then mkTyping (Some (take k TYPEWRITER_TEXT)) k true 1
    else mkTyping (Some TYPEWRITER_TEXT) (length TYPEWRITER_TEXT) false 0.
Proof.
  unfold fireTimes, setupTypewriter. cbn [typewriterText timers].
  induction k as [|k IH].
  - reflexivity.
  - rewrite Nat.iter_succ. rewrite IH. clear IH.
    destruct (k <=? length TYPEWRITER_TEXT)%nat eqn:Hk.
    + apply Nat.leb_le in Hk. unfold fire, typeNextCharacter.
      cbn [timers currentIndex isTyping typewriterText].
      destruct (TYPEWRITER_TEXT !! k) as [c|] eqn:Hc.
      * assert (Hlt : (k < length TYPEWRITER_TEXT)%nat) by (eapply lookup_lt_Some; exact Hc).
        assert (Hle : (S k <=? length TYPEWRITER_TEXT)%nat = true) by (apply Nat.leb_le; lia).
        rewrite Hle. cbn [option_map].
        rewrite (take_S_r TYPEWRITER_TEXT k c Hc). reflexivity.
      * apply lookup_ge_None in Hc.
        assert (Hle : (S k <=? length TYPEWRITER_TEXT)%nat = false) by (apply Nat.leb_gt; lia).
        rewrite Hle. rewrite take_ge by lia.
        assert (Hkl : k = length TYPEWRITER_TEXT) by lia.
        rewrite <- Hkl. reflexivity.
    + apply Nat.leb_gt in Hk.
      assert (Hle : (S k <=? length TYPEWRITER_TEXT)%nat = false) by (apply Nat.leb_gt; lia).
      rewrite Hle. reflexivity.
Qed.

(** X1.  On a page with the header element, after the start delay and [k]
    timer callbacks the header shows the first [k] characters of the text
    (all of it from [k = length] on); typing is flagged, and one timer is
    pending, up to and including the callback that appends the last
    character; the next callback clears the flag and leaves no timer, so
    nothing is typed twice and the effect stops by itself. *)
Theorem typewriter_types_prefix_then_stops
    (old : list ascii) (index : nat) (typing : bool) (k : nat) :
  let s := fireTimes k (setupTypewriter (mkTyping (Some old) index typing 0)) in
  typewriterText s = Some (take k TYPEWRITER_TEXT) /\
  currentIndex s = Nat.min k (length TYPEWRITER_TEXT) /\
  isTyping s = (k <=? length TYPEWRITER_TEXT)%nat /\
  timers s = (if (k <=? length TYPEWRITER_TEXT)%nat then 1 else 0)%nat.
Proof.
  intros s. unfold s. rewrite typing_state.
  destruct (k <=? length TYPEWRITER_TEXT)%nat eqn:Hk.
  - apply Nat.leb_le in Hk. cbn [typewriterText currentIndex isTyping timers].
    repeat split. lia.
  - apply Nat.leb_gt in Hk. cbn [typewriterText currentIndex isTyping timers].
    rewrite take_ge by lia. repeat split. lia.
Qed.

End TypewriterFacts.

(** ** Scroll spy *)

Module ScrollSpyFacts.
Import ScrollSpy.

Lemma href_clearActive (links : list NavLink) : map href (clearActive links) = map href links.
Proof. unfold clearActive. rewrite map_map. reflexivity. Qed.

Lemma href_activateFirst (h : string) (links : list NavLink) :
  map href (activateFirst h links) = map href links.
Proof.
  induction links as [|l links IH]; [reflexivity|]. simpl.
  destruct (String.eqb (href l) h); simpl; [reflexivity | rewrite IH; reflexivity].
Qed.

Lemma clearActive_href (a b : list NavLink) :
  map href a = map href b -> clearActive a = clearActive b.
Proof.
  revert b. induction a as [|x a IH]; intros [|y b] H; try discriminate; [reflexivity|].
  simpl in H. injection H as Hx Hab. unfold clearActive in *. simpl.
  rewrite Hx, (IH b Hab). reflexivity.
Qed.

Lemma countActive_clear (links : list NavLink) : countActive (clearActive links) = 0%nat.
Proof. induction links as [|l links IH]; [reflexivity|]. exact IH. Qed.

Lemma countActive_activateFirst (h : string) (links : list NavLink) :
  countActive links = 0%nat -> (countActive (activateFirst h links) <= 1)%nat.
Proof.
  unfold countActive.
  induction links as [|l links IH]; intros H0; [simpl; lia|].
  simpl in *. destruct (active l) eqn:Ha; [discriminate|].
  destruct (String.eqb (href l) h); simpl.
  - rewrite H0. lia.
  - rewrite Ha. apply IH. exact H0.
Qed.

(** The links a batch leaves when its last intersecting entry is [found]
    ([None]: no entry intersects). *)
Lemma href_outcome (links : list NavLink) (found : option Entry) :
  map href (match found with
            | Some e => activateFirst ("#" ++ targetId e) (clearActive links)
            | None => links
            end) = map href links.
Proof.
  destruct found; [|reflexivity]. rewrite href_activateFirst. apply href_clearActive.
Qed.

Lemma callback_last_wins (links : list NavLink) (entries : list Entry) :
  safeBatch entries ->
  forall found : option Entry,
    sectionObserverCallback entries
      (match found with
       | Some e => activateFirst ("#" ++ targetId e) (clearActive links)
       | None => links
       end) =
    Some (match lastIntersecting entries found with
          | Some e => activateFirst ("#" ++ targetId e) (clearActive links)
          | None => links
          end).
Proof.
  induction 1 as [|e entries He _ IH]; intros found; [reflexivity|].
  cbn [sectionObserverCallback lastIntersecting]. unfold onEntry. rewrite He.
  destruct (isIntersecting e).
  - rewrite (clearActive_href _ links (href_outcome links found)).
    apply (IH (Some e)).
  - apply IH.
Qed.

(** X2.  For a batch whose section ids can be pasted into the selector as
    they are, the observer's callback leaves the links as the last
    intersecting entry of the batch leaves them: all cleared, then the
    first link whose [href] is ["#" ++ id] marked active; a batch without
    an intersecting entry changes nothing. *)
Theorem scroll_spy_last_intersecting_wins (entries : list Entry) (links : list NavLink) :
  safeBatch entries ->
  sectionObserverCallback entries links =
    Some (match lastIntersecting entries None with
          | Some e => activateFirst ("#" ++ targetId e) (clearActive links)
          | None => links
          end).
Proof. intros Hsafe. exact (callback_last_wins links entries Hsafe None). Qed.

Lemma scroll_spy_last_intersecting_wins_witness :
  sectionObserverCallback
    [mkEntry "work" true; mkEntry "about" true; mkEntry "contact" false]
    [mkLink "#about" false; mkLink "#work" true; mkLink "#about" false]
  = Some [mkLink "#about" true; mkLink "#work" false; mkLink "#about" false].
Proof.
  apply (scroll_spy_last_intersecting_wins
           [mkEntry "work" true; mkEntry "about" true; mkEntry "contact" false]
           [mkLink "#about" false; mkLink "#work" true; mkLink "#about" false]).
  repeat constructor.
Defined.

(** X3.  For such a batch, whatever was marked before, an intersecting
    entry in it leaves at most one link active, and the callback changes no
    link's [href]. *)
Theorem scroll_spy_at_most_one_active (entries : list Entry) (links : list NavLink) :
  safeBatch entries ->
  existsb isIntersecting entries = true ->
  exists after,
    sectionObserverCallback entries links = Some after /\
    (countActive after <= 1)%nat /\
    map href after = map href links.
Proof.
  intros Hsafe Hex.
  rewrite (callback_last_wins links entries Hsafe None).
  eexists. split; [reflexivity|].
  assert (Hsome : forall found, existsb isIntersecting entries = true ->
                    is_Some (lastIntersecting entries found)).
  { clear. induction entries as [|e entries IH]; intros found H; [discriminate|].
    simpl in *. destruct (isIntersecting e) eqn:He.
    - clear. generalize e. induction entries as [|x entries IH]; intros e0; simpl; [eauto|].
      destruct (isIntersecting x); apply IH.
    - apply IH. exact H. }
  destruct (Hsome None Hex) as [e He]. rewrite He.
  split.
  - apply countActive_activateFirst. apply countActive_clear.
  - rewrite href_activateFirst. apply href_clearActive.
Qed.

Lemma scroll_spy_at_most_one_active_witness :
  let links := [mkLink "#about" true; mkLink "#work" true; mkLink "#work" false] in
  let entries := [mkEntry "about" false; mkEntry "work" true] in
  exists after,
    sectionObserverCallback entries links = Some after /\
    (countActive after <= 1)%nat.
Proof.
  intros links entries.
  destruct (scroll_spy_at_most_one_active entries links) as (after & E & Hc & _).
  - repeat constructor.
  - reflexivity.
  - exists after. split; assumption.
Defined.

End ScrollSpyFacts.

(** ** Lightbox *)

Module LightboxFacts.
Import Lightbox.

Lemma orElse_nonempty (a b : string) : b <> ""%string -> orElse a b <> ""%string.
Proof.
  intros Hb. unfold orElse. destruct (String.eqb a "") eqn:Ha; [exact Hb|].
  apply String.eqb_neq. exact Ha.
Qed.

(** X4.  A click on a carousel item opens the modal on that item's image
    with a non-empty [alt] (the image's own, else the item's title, else
    "Certificate"), shows the modal and locks the page scroll; closing it
    afterwards hides the modal, drops the image source and releases the
    scroll. *)
Theorem lightbox_open_then_close (item : Item) (m : Modal) :
  let opened := onTrackClick (Some item) m in
  let closed := closeModal opened in
  imgSrc opened = itemSrc item /\
  downloadHref opened = itemSrc item /\
  imgAlt opened <> ""%string /\
  (itemAlt item <> ""%string -> imgAlt opened = itemAlt item) /\
  (itemAlt item = ""%string -> datasetTitle item = None -> figcaption item = None ->
   imgAlt opened = "Certificate"%string) /\
  ariaHidden opened = "false"%string /\
  bodyOverflow opened = "hidden"%string /\
  ariaHidden closed = "true"%string /\
  imgSrc closed = ""%string /\
  bodyOverflow closed = ""%string.
Proof.
  intros opened closed. unfold closed, opened, onTrackClick, openModal, closeModal.
  cbn [imgSrc downloadHref imgAlt ariaHidden bodyOverflow].
  split; [reflexivity|]. split; [reflexivity|].
  split; [apply orElse_nonempty; apply orElse_nonempty; discriminate|].
  split.
  { intros Hne. unfold orElse at 1. apply String.eqb_neq in Hne. rewrite Hne. reflexivity. }
  split.
  { intros -> -> ->. reflexivity. }
  repeat split.
Qed.

End LightboxFacts.

(** ** Theme: persistence and the document *)

Module ThemeMoreFacts.
Import Theme.

(** X5.  Whatever theme was current (even a stored value that is neither),
    a toggle leaves "dark" or "light", writes it to the root element's
    [data-theme], shows the sun exactly for the dark theme when the toggle
    button exists, and stores it; loading the page again with that storage
    restores the toggled theme whatever the system preference. *)
Theorem toggled_theme_survives_reload (s : ThemeState) (prefersDark : bool)
    (toggle : option Icon) :
  let t := toggleTheme s in
  let reloaded := setupTheme prefersDark (mkTheme "dark" None toggle (localStorage t)) in
  (currentTheme t = "dark"%string \/ currentTheme t = "light"%string) /\
  dataTheme t = Some (currentTheme t) /\
  themeToggle t =
    option_map (fun _ => if String.eqb (currentTheme t) "dark" then Sun else Moon)
               (themeToggle s) /\
  currentTheme reloaded = currentTheme t /\
  dataTheme reloaded = Some (currentTheme t).
Proof.
  intros t reloaded.
  assert (Hcur : currentTheme t = if String.eqb (currentTheme s) "dark"
                                  then "light"%string else "dark"%string) by reflexivity.
  assert (Hstore : localStorage t !! "theme"%string = Some (currentTheme t)).
  { unfold t, toggleTheme. simpl. apply lookup_insert_eq. }
  assert (Hre : currentTheme reloaded = currentTheme t).
  { unfold reloaded, setupTheme. cbn [localStorage currentTheme updateTheme].
    rewrite Hstore. rewrite Hcur. destruct (String.eqb (currentTheme s) "dark"); reflexivity. }
  split; [rewrite Hcur; destruct (String.eqb (currentTheme s) "dark"); auto|].
  split; [reflexivity|].
  split; [unfold t, toggleTheme; simpl; destruct (themeToggle s); reflexivity|].
  split; [exact Hre|].
  rewrite <- Hre. reflexivity.
Qed.

End ThemeMoreFacts.

(** ** The e-mail pattern and the form as a whole *)

Module FormMoreFacts.
Import JsString JsStringFacts Form FormChecks.

Lemma lang_star_class (p : N -> bool) (s : jsstring) :
  lang (Star (Class p)) s <-> Forall (fun c => p c = true) s.
Proof.
  split.
  - intros H. remember (Star (Class p)) as r eqn:Hr.
    induction H as [| | | | | |r0 s1 s2 H1 _ H2 IH2]; try discriminate.
    + constructor.
    + injection Hr as ->. inversion H1; subst. simpl. constructor; [assumption|].
      apply IH2. reflexivity.
  - induction 1 as [|c s Hc _ IH].
    + constructor.
    + change (c :: s) with ([c] ++ s). constructor; [constructor; exact Hc | exact IH].
Qed.

Lemma lang_plus_class (p : N -> bool) (s : jsstring) :
  lang (Plus (Class p)) s <-> s <> [] /\ Forall (fun c => p c = true) s.
Proof.
  unfold Plus. split.
  - inversion 1 as [| |? ? s1 s2 H1 H2| | | |]; subst.
    inversion H1; subst. apply lang_star_class in H2. simpl.
    split; [discriminate | constructor; assumption].
  - intros [Hne Hall]. destruct s as [|c s]; [congruence|].
    apply Forall_cons in Hall as [Hc Hs].
    change (c :: s) with ([c] ++ s). constructor; [constructor; exact Hc|].
    apply lang_star_class. exact Hs.
Qed.

Lemma lang_char (k : N) (s : jsstring) : lang (Class (N.eqb k)) s <-> s = [k].
Proof.
  split.
  - inversion 1; subst. f_equal. symmetry. apply N.eqb_eq. assumption.
  - intros ->. constructor. apply N.eqb_refl.
Qed.

Lemma lang_seq_iff (r1 r2 : regex) (s : jsstring) :
  lang (Seq r1 r2) s <-> exists s1 s2, s = s1 ++ s2 /\ lang r1 s1 /\ lang r2 s2.
Proof.
  split.
  - inversion 1; subst. eauto.
  - intros (s1 & s2 & -> & H1 & H2). constructor; assumption.
Qed.

(** The strings the e-mail pattern accepts. *)
Lemma emailRegex_shape (s : jsstring) :
  matches emailRegex s = true <->
  exists a b c,
    s = a ++ [64%N] ++ b ++ [46%N] ++ c /\
    a <> [] /\ b <> [] /\ c <> [] /\
    Forall (fun u => notSpaceNorAt u = true) (a ++ b ++ c).
Proof.
  rewrite matches_lang. unfold emailRegex.
  rewrite lang_seq_iff. split.
  - intros (a & r1 & -> & Ha & H1).
    apply lang_seq_iff in H1 as (at1 & r2 & -> & Hat & H2).
    apply lang_seq_iff in H2 as (b & r3 & -> & Hb & H3).
    apply lang_seq_iff in H3 as (dot & c & -> & Hdot & Hc).
    apply lang_char in Hat as ->. apply lang_char in Hdot as ->.
    apply lang_plus_class in Ha as [Ha1 Ha2].
    apply lang_plus_class in Hb as [Hb1 Hb2].
    apply lang_plus_class in Hc as [Hc1 Hc2].
    exists a, b, c. repeat split; try assumption.
    apply Forall_app; split; [assumption|]. apply Forall_app; split; assumption.
  - intros (a & b & c & -> & Ha & Hb & Hc & Hall).
    apply Forall_app in Hall as [Ha2 Hall]. apply Forall_app in Hall as [Hb2 Hc2].
    exists a, ([64%N] ++ b ++ [46%N] ++ c). split; [reflexivity|].
    split; [apply lang_plus_class; split; assumption|].
    apply lang_seq_iff. exists [64%N], (b ++ [46%N] ++ c). split; [reflexivity|].
    split; [apply lang_char; reflexivity|].
    apply lang_seq_iff. exists b, ([46%N] ++ c). split; [reflexivity|].
    split; [apply lang_plus_class; split; assumption|].
    apply lang_seq_iff. exists [46%N], c. split; [reflexivity|].
    split; [apply lang_char; reflexivity|].
    apply lang_plus_class; split; assumption.
Qed.

(** X6.  The e-mail field is accepted exactly when its trimmed value is
    [local @ domain . tail]: three non-empty runs of code units, none of
    them white space or ["@"], joined by one ["@"] and a ["."] (the domain
    and the tail may hold further dots). *)
Theorem email_accepted_iff_shape (v : jsstring) :
  validate "email" v = (true, ""%string) <->
  exists a b c,
    trim v = a ++ [64%N] ++ b ++ [46%N] ++ c /\
    a <> [] /\ b <> [] /\ c <> [] /\
    Forall (fun u => notSpaceNorAt u = true) (a ++ b ++ c).
Proof.
  rewrite <- emailRegex_shape. unfold validate. cbn [String.eqb Ascii.eqb Bool.eqb].
  change (String.eqb "email" "name") with false.
  change (String.eqb "email" "email") with true. cbv iota.
  destruct (trim v) as [|c t] eqn:Ht.
  - simpl. split; discriminate.
  - cbn [length Nat.eqb]. destruct (matches emailRegex (c :: t)); simpl; split;
      congruence.
Qed.

(** *** One field *)

Lemma validateField_effect (i : nat) (p : Page) (f : Field) :
  fields p !! i = Some f ->
  let ok := fst (validate (name f) (value f)) in
  let msg := snd (validate (name f) (value f)) in
  let id := (name f ++ "-error")%string in
  validateField i p =
    (ok,
     mkPage (<[i := mkField (name f) (value f) (defaultValue f) (negb ok)]> (fields p))
            (match byId p !! id with
             | None => byId p
             | Some _ => <[id := if ok then mkErr "" false else mkErr msg true]> (byId p)
             end)
            (notices p)).
Proof.
  intros Hf ok msg id. unfold validateField. rewrite Hf.
  assert (Hlt : (i < length (fields p))%nat) by (eapply lookup_lt_Some; exact Hf).
  unfold ok, msg, id. destruct (validate (name f) (value f)) as [okv m].
  cbn [fst snd]. unfold showFieldError. cbn [fields byId notices].
  rewrite list_lookup_insert_eq by exact Hlt.
  cbn [name setErrorClass value defaultValue].
  rewrite list_insert_insert_eq.
  destruct (byId p !! (name f ++ "-error")%string); destruct okv; reflexivity.
Qed.

Lemma insert_same_projection {A : Type} (g : Field -> A) (fs : list Field) (i : nat)
    (f f' : Field) :
  fs !! i = Some f -> g f' = g f -> map g (<[i := f']> fs) = map g fs.
Proof.
  revert i. induction fs as [|x fs IH]; intros [|i] Hf Hg; simpl in *; try discriminate.
  - injection Hf as ->. rewrite Hg. reflexivity.
  - rewrite (IH i Hf Hg). reflexivity.
Qed.

Lemma validateField_keeps_data (i : nat) (p : Page) (f : Field) :
  fields p !! i = Some f ->
  fst (validateField i p) = fst (validate (name f) (value f)) /\
  map name (fields (snd (validateField i p))) = map name (fields p) /\
  map value (fields (snd (validateField i p))) = map value (fields p) /\
  map defaultValue (fields (snd (validateField i p))) = map defaultValue (fields p) /\
  notices (snd (validateField i p)) = notices p.
Proof.
  intros Hf. rewrite (validateField_effect i p f Hf). cbn [fst snd fields notices].
  split; [reflexivity|].
  split; [apply (insert_same_projection name _ _ f); [exact Hf | reflexivity]|].
  split; [apply (insert_same_projection value _ _ f); [exact Hf | reflexivity]|].
  split; [apply (insert_same_projection defaultValue _ _ f); [exact Hf | reflexivity]|].
  reflexivity.
Qed.

(** X7.  Validating a control changes no control's name, value or default
    and no other control's error class; the answer is [true] exactly when
    the control ends without the error class; its error element, when the
    page has one, shows the message for an invalid value and is emptied
    and hidden for a valid one; every other element is left alone. *)
Theorem validateField_touches_only_its_field (i : nat) (p : Page) (f : Field) :
  fields p !! i = Some f ->
  let ok := fst (validateField i p) in
  let p' := snd (validateField i p) in
  let id := (name f ++ "-error")%string in
  ok = fst (validate (name f) (value f)) /\
  map name (fields p') = map name (fields p) /\
  map value (fields p') = map value (fields p) /\
  map defaultValue (fields p') = map defaultValue (fields p) /\
  (errorClass <$> fields p' !! i) = Some (negb ok) /\
  (forall j, j <> i -> fields p' !! j = fields p !! j) /\
  (forall other, other <> id -> byId p' !! other = byId p !! other) /\
  (byId p' !! id =
     match byId p !! id with
     | None => None
     | Some _ => Some (if ok then mkErr "" false
                       else mkErr (snd (validate (name f) (value f))) true)
     end) /\
  notices p' = notices p.
Proof.
  intros Hf ok p' id. unfold ok, p'. rewrite (validateField_effect i p f Hf).
  cbn [fst snd fields byId notices].
  assert (Hlt : (i < length (fields p))%nat) by (eapply lookup_lt_Some; exact Hf).
  split; [reflexivity|].
  split; [apply (insert_same_projection name _ _ f); [exact Hf | reflexivity]|].
  split; [apply (insert_same_projection value _ _ f); [exact Hf | reflexivity]|].
  split; [apply (insert_same_projection defaultValue _ _ f); [exact Hf | reflexivity]|].
  split; [rewrite list_lookup_insert_eq by exact Hlt; reflexivity|].
  split; [intros j Hj; apply list_lookup_insert_ne; congruence|].
  split.
  - intros other Hother. fold id. destruct (byId p !! id); [|reflexivity].
    apply lookup_insert_ne. congruence.
  - split; [|reflexivity]. fold id. destruct (byId p !! id) eqn:Hid.
    + apply lookup_insert_eq.
    + exact Hid.
Qed.

Lemma validateField_touches_only_its_field_witness :
  let p := contactForm "Al" "bad" "hi" ([], [], []) in
  fst (validateField 1 p) = false /\
  map value (fields (snd (validateField 1 p))) = map value (fields p).
Proof.
  intros p.
  destruct (validateField_touches_only_its_field 1 p
              (mkField "email" (of_string "bad") [] false) eq_refl)
    as (Hok & _ & Hval & _).
  split; [rewrite Hok; reflexivity | exact Hval].
Defined.

(** *** The whole form *)

Lemma querySelectorName_names (key : string) (fs fs' : list Field) :
  map name fs = map name fs' ->
  forall n, querySelectorName key fs n = querySelectorName key fs' n.
Proof.
  revert fs'. induction fs as [|f fs IH]; intros [|f' fs'] H n; try discriminate;
    [reflexivity|].
  simpl in *. injection H as Hn Hrest. rewrite Hn.
  destruct (String.eqb (name f') key); [reflexivity | apply IH; exact Hrest].
Qed.

Lemma querySelectorName_found (key : string) (fs : list Field) :
  forall n i, querySelectorName key fs n = Some i ->
    exists f, fs !! (i - n)%nat = Some f /\ (n <= i)%nat.
Proof.
  induction fs as [|f fs IH]; intros n i H; simpl in H; [discriminate|].
  destruct (String.eqb (name f) key).
  - injection H as <-. exists f. rewrite Nat.sub_diag. split; [reflexivity | lia].
  - destruct (IH (S n) i H) as (g & Hg & Hle). exists g.
    replace (i - n)%nat with (S (i - S n)) by lia. split; [exact Hg | lia].
Qed.

Lemma lookup_projection {A : Type} (g : Field -> A) (fs fs' : list Field) (i : nat)
    (f f' : Field) :
  map g fs = map g fs' -> fs !! i = Some f -> fs' !! i = Some f' -> g f = g f'.
Proof.
  revert fs' i. induction fs as [|x fs IH]; intros [|y fs'] [|i] H Hf Hf';
    simpl in *; try discriminate.
  - injection H as Hxy _. congruence.
  - injection H as _ Hrest. exact (IH fs' i Hrest Hf Hf').
Qed.

Lemma keyValid_names_values (fs fs' : list Field) (key : string) :
  map name fs = map name fs' -> map value fs = map value fs' ->
  keyValid fs key = keyValid fs' key.
Proof.
  intros Hn Hv. unfold keyValid. rewrite (querySelectorName_names key fs fs' Hn 0).
  destruct (querySelectorName key fs' 0) as [i|]; [|reflexivity].
  destruct (fs !! i) as [f|] eqn:Hf; destruct (fs' !! i) as [f'|] eqn:Hf'.
  - rewrite (lookup_projection name fs fs' i f f' Hn Hf Hf').
    rewrite (lookup_projection value fs fs' i f f' Hv Hf Hf'). reflexivity.
  - apply lookup_ge_None in Hf'. apply lookup_lt_Some in Hf.
    apply (f_equal (@length _)) in Hn. rewrite !length_map in Hn. lia.
  - apply lookup_ge_None in Hf. apply lookup_lt_Some in Hf'.
    apply (f_equal (@length _)) in Hn. rewrite !length_map in Hn. lia.
  - reflexivity.
Qed.

Lemma forallb_pointwise {A : Type} (g h : A -> bool) (l : list A) :
  (forall a, g a = h a) -> forallb g l = forallb h l.
Proof. intros H. induction l as [|a l IH]; simpl; [reflexivity | rewrite H, IH; reflexivity]. Qed.

(** The loop over the keys answers the conjunction of the single checks,
    each made on the values the form had at the start. *)
Lemma validateAll_decides (keys : list string) :
  forall (ok : bool) (p : Page),
    fst (validateAll keys ok p) = ok && forallb (keyValid (fields p)) keys /\
    map name (fields (snd (validateAll keys ok p))) = map name (fields p) /\
    map value (fields (snd (validateAll keys ok p))) = map value (fields p) /\
    map defaultValue (fields (snd (validateAll keys ok p))) = map defaultValue (fields p) /\
    notices (snd (validateAll keys ok p)) = notices p.
Proof.
  induction keys as [|key keys IH]; intros ok p.
  - simpl. rewrite andb_true_r. repeat split.
  - cbn [validateAll forallb]. unfold keyValid at 1.
    destruct (querySelectorName key (fields p) 0) as [i|] eqn:Hq.
    + destruct (querySelectorName_found key (fields p) 0 i Hq) as (f & Hf & _).
      rewrite Nat.sub_0_r in Hf. rewrite Hf.
      destruct (validateField_keeps_data i p f Hf)
        as (Hok & Hn & Hv & Hd & Hnot).
      destruct (validateField i p) as [okf p'] eqn:Hvf. cbn [fst snd] in *.
      destruct (IH (if okf then ok else false) p') as (H1 & H2 & H3 & H4 & H5).
      rewrite H1, H2, H3, H4, H5, Hn, Hv, Hd, Hnot.
      split; [|repeat split].
      rewrite <- Hok.
      rewrite (forallb_pointwise (keyValid (fields p')) (keyValid (fields p)))
        by (intros k; apply keyValid_names_values; assumption).
      destruct okf, ok; reflexivity.
    + cbn [andb]. apply IH.
Qed.

Lemma value_reset (fs : list Field) : map value (map resetField fs) = map defaultValue fs.
Proof. induction fs as [|f fs IH]; simpl; [reflexivity | rewrite IH; reflexivity]. Qed.

Lemma name_reset (fs : list Field) : map name (map resetField fs) = map name fs.
Proof. induction fs as [|f fs IH]; simpl; [reflexivity | rewrite IH; reflexivity]. Qed.

(** X8.  On a form of enabled text controls whose names can be pasted
    into a selector as they are, a submission checks, for each distinct
    non-empty control name, the first control of that name, on the values
    the form had when it was submitted.  When all of them pass, every
    control gets its default value back and one success notice is added;
    when one fails, no value changes and no notice is added.  Either way
    no control is renamed.  (A form without named controls passes.) *)
Theorem submit_resets_iff_all_valid (p : Page) :
  plainNames (fields p) ->
  let after := handleFormSubmit p in
  map name (fields after) = map name (fields p) /\
  map value (fields after) =
    (if allValid (fields p) then map defaultValue (fields p) else map value (fields p)) /\
  notices after = (if allValid (fields p) then S (notices p) else notices p).
Proof.
  intros _ after. unfold after, handleFormSubmit, allValid.
  destruct (validateAll_decides (formKeys (fields p)) true p) as (Hok & Hn & Hv & Hd & Hnot).
  destruct (validateAll (formKeys (fields p)) true p) as [ok p'].
  cbn [fst snd andb] in *. rewrite <- Hok.
  destruct ok.
  - unfold reset, showSuccessMessage. cbn [fields notices].
    rewrite name_reset, value_reset, Hn, Hd, Hnot. repeat split.
  - rewrite Hn, Hv, Hnot. repeat split.
Qed.

Lemma submit_resets_iff_all_valid_witness :
  let d := (of_string "your name", of_string "you@example.org", of_string "") in
  let valid := contactForm "Al" "a@b.com" "Hello there, this is long enough." d in
  let invalid := contactForm "Al" "a@b" "Hello there, this is long enough." d in
  (map value (fields (handleFormSubmit valid)) =
     [of_string "your name"; of_string "you@example.org"; of_string ""] /\
   notices (handleFormSubmit valid) = 1%nat) /\
  (map value (fields (handleFormSubmit invalid)) = map value (fields invalid) /\
   notices (handleFormSubmit invalid) = 0%nat).
Proof.
  intros d valid invalid. split.
  - destruct (submit_resets_iff_all_valid valid) as (_ & Hv & Hn).
    + repeat constructor.
    + split; [exact Hv | exact Hn].
  - destruct (submit_resets_iff_all_valid invalid) as (_ & Hv & Hn).
    + repeat constructor.
    + split; [exact Hv | exact Hn].
Defined.

End FormMoreFacts.

(** ** The particle loop: scheduling *)

Module LoopMoreFacts.
Import Particles Loop LoopFacts.

Section WithRandom.
Variable random : nat -> R.

(** X9.  From page load on, whatever frames and visibility changes follow,
    at most one [animate] callback is waiting for the next frame: the
    visibility listener never starts a second loop beside a running one. *)
Theorem loop_never_doubles (available isHidden : bool) (env : Env) (k : nat)
    (evs : list Event) :
  (length (rafQueue (run random evs
                       (setupThreeJsBackground random available isHidden env k))) <= 1)%nat.
Proof.
  apply (single_run random evs). apply single_setup.
Qed.

Lemma hidden_frame_is_idle (env : Env) (s : LoopState) :
  hidden s = true ->
  handle random s (Frame env) =
    mkLoop true (animationId s) [] (nextHandle s) (particles s) (canRender s) (renders s).
Proof.
  intros H. unfold handle. rewrite H.
  generalize (rafQueue s). intros due.
  induction due as [|h due IH]; cbn [fold_left]; [reflexivity|].
  rewrite animate_hidden by reflexivity. exact IH.
Qed.

(** X10.  A frame that finds the page hidden does nothing but drop the
    callbacks that were due: no particle moves, nothing is rendered, and no
    new frame is requested. *)
Theorem hidden_frame_only_drops_callbacks (env : Env) (s : LoopState) :
  hidden s = true ->
  let s' := handle random s (Frame env) in
  rafQueue s' = [] /\
  particles s' = particles s /\
  renders s' = renders s /\
  animationId s' = animationId s /\
  nextHandle s' = nextHandle s.
Proof.
  intros H s'. unfold s'. rewrite (hidden_frame_is_idle env s H). repeat split.
Qed.

Lemma animate_visible_renders (env : Env) (s : LoopState) :
  hidden s = false ->
  canRender (animate random env s) = canRender s /\
  renders (animate random env s) = (if canRender s then S (renders s) else renders s) /\
  particles (animate random env s) = animateParticles random env (particles s).
Proof. intros H. unfold animate. rewrite H. repeat split. Qed.

Lemma visible_frames (envs : list Env) :
  forall (s : LoopState) (h : positive),
    hidden s = false ->
    rafQueue s = [h] ->
    let s' := run random (map Frame envs) s in
    hidden s' = false /\
    (exists h', rafQueue s' = [h'] /\ (envs <> [] -> animationId s' = Some h')) /\
    canRender s' = canRender s /\
    renders s' = (if canRender s then renders s + length envs else renders s)%nat.
Proof.
  induction envs as [|env envs IH]; intros s h Hh Hq.
  - cbn. split; [exact Hh|]. split; [exists h; split; [exact Hq | congruence]|].
    split; [reflexivity|]. destruct (canRender s); lia.
  - cbn [map run fold_left].
    set (s1 := handle random s (Frame env)).
    assert (H1 : hidden s1 = false /\ rafQueue s1 = [nextHandle s] /\
                 animationId s1 = Some (nextHandle s) /\
                 canRender s1 = canRender s /\
                 renders s1 = if canRender s then S (renders s) else renders s).
    { unfold s1, handle. rewrite Hq. cbn [fold_left].
      set (t := mkLoop _ _ [] _ _ _ _).
      destruct (animate_visible random env t Hh) as (A1 & A2 & A3 & _).
      destruct (animate_visible_renders env t Hh) as (B1 & B2 & _).
      repeat split; assumption. }
    destruct H1 as (Hh1 & Hq1 & Hid1 & Hc1 & Hr1).
    clearbody s1.
    destruct (IH s1 (nextHandle s) Hh1 Hq1) as (Hh' & (h' & Hq' & Hid') & Hc' & Hr').
    fold (run random (map Frame envs) s1).
    split; [exact Hh'|]. split.
    + exists h'. split; [exact Hq'|]. intros _.
      destruct envs as [|e envs']; [|apply Hid'; discriminate].
      cbn in Hq' |- *. rewrite Hq1 in Hq'. injection Hq' as <-. exact Hid1.
    + split; [congruence|]. rewrite Hr', Hc1, Hr1. cbn [length].
      destruct (canRender s); lia.
Qed.

(** X11.  While the page stays visible, a running loop keeps exactly one
    callback waiting after every frame, stores its handle in
    [state.animationId], and renders once per frame when the scene
    exists. *)
Theorem visible_loop_runs_once_per_frame (envs : list Env) (s : LoopState) (h : positive) :
  hidden s = false ->
  rafQueue s = [h] ->
  canRender s = true ->
  let s' := run random (map Frame envs) s in
  hidden s' = false /\
  (exists h', rafQueue s' = [h'] /\ (envs <> [] -> animationId s' = Some h')) /\
  renders s' = (renders s + length envs)%nat.
Proof.
  intros Hh Hq Hc s'.
  destruct (visible_frames envs s h Hh Hq) as (H1 & H2 & _ & H4).
  rewrite Hc in H4. repeat split; assumption.
Qed.

(** X12.  A page that loads hidden starts no loop; the first return of
    visibility starts it, and a repeated visibility event does not start
    it again. *)
Theorem page_loaded_hidden_starts_once (env0 env1 env2 : Env) (k : nat) :
  let s0 := setupThreeJsBackground random true true env0 k in
  rafQueue s0 = [] /\
  rafQueue (run random [Visibility false env1] s0) = [1%positive] /\
  rafQueue (run random [Visibility false env1; Visibility false env2] s0) = [1%positive].
Proof.
  pose proof (first_return_starts_loop random env0 env1 k) as H. revert H.
  cbv zeta. generalize (setupThreeJsBackground random true true env0 k).
  intros s0 [H0 H1].
  split; [exact H0|]. split; [exact H1|].
  assert (Hid : is_Some (animationId (handle random s0 (Visibility false env1)))).
  { pose proof (single_handle random s0 (Visibility false env1)) as Hs.
    destruct Hs as [_ Hs].
    - split; [rewrite H0; cbn [length]; lia | rewrite H0; congruence].
    - apply Hs. unfold run in H1. cbn [fold_left] in H1. rewrite H1. discriminate. }
  unfold run in *. cbn [fold_left] in *.
  set (s1 := handle random s0 (Visibility false env1)) in *. clearbody s1.
  unfold handle, onVisibilityChange.
  cbn [hidden animationId rafQueue nextHandle particles canRender renders negb andb].
  rewrite bool_decide_eq_true_2 by exact Hid. exact H1.
Qed.

(** X13.  Without the 3D library or the canvas no particle field exists
    and nothing is ever rendered, whatever frames and visibility changes
    follow. *)
Theorem no_library_never_renders (isHidden : bool) (env : Env) (k : nat)
    (evs : list Event) :
  let s := run random evs (setupThreeJsBackground random false isHidden env k) in
  particles s = (None, k) /\ renders s = 0%nat.
Proof.
  intros s. unfold s. clear s.
  assert (Hinv : forall evs t,
            (particles t = (None, k) /\ renders t = 0%nat /\ canRender t = false) ->
            particles (run random evs t) = (None, k) /\
            renders (run random evs t) = 0%nat /\
            canRender (run random evs t) = false).
  { clear evs. assert (Hani : forall e t,
              particles t = (None, k) /\ renders t = 0%nat /\ canRender t = false ->
              particles (animate random e t) = (None, k) /\
              renders (animate random e t) = 0%nat /\
              canRender (animate random e t) = false).
    { intros e t (Hp & Hr & Hc). unfold animate. destruct (hidden t); [auto|].
      cbn [particles renders canRender requestAnimate]. rewrite Hp, Hr, Hc. auto. }
    induction evs as [|e evs IH]; intros t Ht; [exact Ht|].
    apply (IH (handle random t e)). destruct e as [e|h e]; unfold handle.
    - generalize (rafQueue t). intros due.
      set (t0 := mkLoop _ _ [] _ _ _ _).
      assert (Ht0 : particles t0 = (None, k) /\ renders t0 = 0%nat /\ canRender t0 = false)
        by exact Ht.
      clearbody t0. revert t0 Ht0.
      induction due as [|x due IHd]; intros t0 Ht0; cbn [fold_left]; [exact Ht0|].
      apply IHd. apply Hani. exact Ht0.
    - unfold onVisibilityChange.
      match goal with |- context [if ?c then _ else _] => destruct c end.
      + unfold startAnimation. apply Hani. exact Ht.
      + exact Ht. }
  destruct (Hinv evs (setupThreeJsBackground random false isHidden env k)) as (Hp & Hr & _).
  - repeat split.
  - split; assumption.
Qed.

End WithRandom.

Lemma hidden_frame_only_drops_callbacks_witness :
  let s := mkLoop true (Some 1%positive) [1%positive] 2%positive (None, 0%nat) false 0 in
  rafQueue (handle (fun _ => 0.5%R) s (Frame (mkEnv 0 0 0 1000 1000))) = [].
Proof.
  intros s.
  apply (hidden_frame_only_drops_callbacks (fun _ => 0.5%R) (mkEnv 0 0 0 1000 1000) s).
  reflexivity.
Defined.

Lemma visible_loop_runs_once_per_frame_witness :
  let s := mkLoop false (Some 1%positive) [1%positive] 2%positive (None, 0%nat) true 0 in
  let envs := [mkEnv 0 0 0 1000 1000; mkEnv 16 0 0 1000 1000] in
  renders (run (fun _ => 0.5%R) (map Frame envs) s) = 2%nat.
Proof.
  intros s envs.
  apply (visible_loop_runs_once_per_frame (fun _ => 0.5%R) envs s 1%positive);
    reflexivity.
Defined.

End LoopMoreFacts.

(** ** Particle field: creation and what a frame keeps *)

Module ParticlesMoreFacts.
Import Particles ParticlesFacts.
Local Open Scope R_scope.

Lemma triple_components (a : list R) (i : nat) (x y z : R) :
  triple a i = (x, y, z) ->
  get a i = x /\ get a (i + 1) = y /\ get a (i + 2) = z.
Proof. unfold triple. intros H. injection H as Hx Hy Hz. auto. Qed.

Section WithRandom.
Variable random : nat -> R.

Lemma create_size_color (k j : nat) :
  (j < particleCount)%nat ->
  let created := createParticles random k in
  get (sizes (fst created)) j = random (k + 8 * j + 6)%nat * 3 + 1 /\
  triple (colors (fst created)) (3 * j) =
    (if Rlt_dec (random (k + 8 * j + 7)%nat) 0.33 then (1.0, 0.49, 0.86)
     else if Rlt_dec (random (k + 8 * j + 7)%nat) 0.66 then (0.49, 0.91, 1.0)
     else (1.0, 0.72, 0.42)) /\
  length (sizes (fst created)) = particleCount /\
  length (colors (fst created)) = (3 * particleCount)%nat /\
  snd created = (k + 8 * particleCount)%nat.
Proof.
  intros Hj created. unfold created, createParticles. clear created.
  set (blank := mkPoints _ _ _ _ _ _).
  pose (Inv := fun (i : nat) (w : Points * nat) =>
    snd w = (k + 8 * i)%nat /\
    length (sizes (fst w)) = particleCount /\
    length (colors (fst w)) = (3 * particleCount)%nat /\
    ((j < i)%nat ->
       get (sizes (fst w)) j = random (k + 8 * j + 6)%nat * 3 + 1 /\
       triple (colors (fst w)) (3 * j) =
         (if Rlt_dec (random (k + 8 * j + 7)%nat) 0.33 then (1.0, 0.49, 0.86)
          else if Rlt_dec (random (k + 8 * j + 7)%nat) 0.66 then (0.49, 0.91, 1.0)
          else (1.0, 0.72, 0.42)))).
  assert (H : Inv (0 + particleCount)%nat
                (fold_left (fun w i => createBody random i w) (seq 0 particleCount) (blank, k))).
  { apply (fold_seq_invariant (fun w i => createBody random i w) Inv).
    - unfold Inv, blank. cbn [fst snd sizes colors].
      rewrite !length_replicate. repeat split; try lia.
    - intros i [q c] Hi (Hc & Hls & Hlc & Hdone). cbn [fst snd] in Hc, Hls, Hlc, Hdone.
      subst c. unfold particleCount in Hi, Hls, Hlc.
      assert (Hsz : sizes (fst (createBody random i (q, (k + 8 * i)%nat))) =
                <[i := random (k + 8 * i + 6)%nat * 3 + 1]> (sizes q)).
      { unfold createBody.
        repeat match goal with |- context [if ?c then _ else _] => destruct c end;
          reflexivity. }
      assert (Hcol : colors (fst (createBody random i (q, (k + 8 * i)%nat))) =
                if Rlt_dec (random (k + 8 * i + 7)%nat) 0.33 then
                  <[(i * 3 + 2)%nat := 0.86]>
                    (<[(i * 3 + 1)%nat := 0.49]> (<[(i * 3)%nat := 1.0]> (colors q)))
                else if Rlt_dec (random (k + 8 * i + 7)%nat) 0.66 then
                  <[(i * 3 + 2)%nat := 1.0]>
                    (<[(i * 3 + 1)%nat := 0.91]> (<[(i * 3)%nat := 0.49]> (colors q)))
                else
                  <[(i * 3 + 2)%nat := 0.42]>
                    (<[(i * 3 + 1)%nat := 0.72]> (<[(i * 3)%nat := 1.0]> (colors q)))).
      { unfold createBody.
        repeat match goal with |- context [if ?c then _ else _] => destruct c end;
          reflexivity. }
      assert (Hcnt : snd (createBody random i (q, (k + 8 * i)%nat)) = (k + 8 * S i)%nat).
      { unfold createBody. cbn [snd]. lia. }
      unfold Inv. rewrite Hsz, Hcol, Hcnt.
      split; [reflexivity|].
      split; [rewrite length_insert; exact Hls|].
      split.
      { repeat match goal with |- context [if ?c then _ else _] => destruct c end;
          rewrite !length_insert; exact Hlc. }
      intros Hji. unfold triple, get.
      destruct (decide (j = i)) as [->|Hne].
      + replace (3 * i)%nat with (i * 3)%nat by lia.
        rewrite list_lookup_insert_eq by lia.
        split; [reflexivity|].
        destruct (Rlt_dec (random (k + 8 * i + 7)%nat) 0.33);
          [|destruct (Rlt_dec (random (k + 8 * i + 7)%nat) 0.66)];
          repeat first
            [ rewrite list_lookup_insert_eq by (rewrite ?length_insert; lia)
            | rewrite list_lookup_insert_ne by lia ];
          reflexivity.
      + destruct Hdone as [Hs Hcl]; [lia|].
        rewrite list_lookup_insert_ne by lia.
        split; [exact Hs|].
        unfold triple, get in Hcl. rewrite <- Hcl.
        repeat match goal with |- context [if ?c then _ else _] => destruct c end;
          rewrite !list_lookup_insert_ne by lia; reflexivity. }
  destruct H as (Hc & Hls & Hlc & Hdone).
  destruct (Hdone ltac:(lia)) as [Hs Hcl].
  repeat split; assumption.
Qed.

(** X14.  When [Math.random()] answers in [[0, 1)], every particle is
    created inside the box (x in [[-20, 20]], y in [[-15, 15]], z in
    [[-10, 10]]) with a small sideways drift and an upward y velocity
    (between [2^-7] and [2^-4]; x within [2^-6] and z within [2^-7] of
    zero); the position and velocity arrays hold 1200 numbers each.  The
    bounds are numbers a single-precision array holds exactly, so they are
    kept by the rounding of the store. *)
Theorem created_particle_in_box (k j : nat) :
  (forall n, 0 <= random n < 1) ->
  (j < particleCount)%nat ->
  let p := fst (createParticles random k) in
  length (positions p) = 1200%nat /\
  length (velocities p) = 1200%nat /\
  (-20 <= get (positions p) (3 * j) <= 20 /\
   -15 <= get (positions p) (3 * j + 1) <= 15 /\
   -10 <= get (positions p) (3 * j + 2) <= 10) /\
  (-0.015625 <= get (velocities p) (3 * j) <= 0.015625 /\
   0.0078125 <= get (velocities p) (3 * j + 1) <= 0.0625 /\
   -0.0078125 <= get (velocities p) (3 * j + 2) <= 0.0078125).
Proof.
  intros Hr Hj p.
  destruct (create_particle random k j Hj) as (Hlp & Hlv & Hp & Hv).
  fold p in Hlp, Hlv, Hp, Hv. clearbody p.
  apply triple_components in Hp as (Hx & Hy & Hz).
  apply triple_components in Hv as (Hvx & Hvy & Hvz).
  rewrite Hlp, Hlv, Hx, Hy, Hz, Hvx, Hvy, Hvz.
  pose proof (Hr (k + 8 * j)%nat). pose proof (Hr (k + 8 * j + 1)%nat).
  pose proof (Hr (k + 8 * j + 2)%nat). pose proof (Hr (k + 8 * j + 3)%nat).
  pose proof (Hr (k + 8 * j + 4)%nat). pose proof (Hr (k + 8 * j + 5)%nat).
  repeat split; try reflexivity; lra.
Qed.

(** X15.  Under the same assumption every particle gets a size in
    [[1, 4]] and a colour whose three components lie in [[0, 1]]; the size
    array holds 400 numbers and the colour array 1200, and creation makes
    eight draws per particle, 3200 in all. *)
Theorem created_particle_size_and_colour (k j : nat) :
  (forall n, 0 <= random n < 1) ->
  (j < particleCount)%nat ->
  let created := createParticles random k in
  let p := fst created in
  1 <= get (sizes p) j <= 4 /\
  (0 <= get (colors p) (3 * j) <= 1 /\
   0 <= get (colors p) (3 * j + 1) <= 1 /\
   0 <= get (colors p) (3 * j + 2) <= 1) /\
  length (sizes p) = 400%nat /\
  length (colors p) = 1200%nat /\
  snd created = (k + 3200)%nat.
Proof.
  intros Hr Hj created p.
  destruct (create_size_color k j Hj) as (Hs & Hc & Hls & Hlc & Hk).
  fold created in Hs, Hc, Hls, Hlc, Hk. fold p in Hs, Hc, Hls, Hlc.
  clearbody p. clearbody created.
  pose proof (Hr (k + 8 * j + 6)%nat).
  split; [rewrite Hs; lra|].
  split.
  - destruct (Rlt_dec _ 0.33); [|destruct (Rlt_dec _ 0.66)];
      apply triple_components in Hc as (Hr0 & Hg0 & Hb0);
      rewrite Hr0, Hg0, Hb0; lra.
  - split; [exact Hls|]. split; [exact Hlc|]. rewrite Hk. reflexivity.
Qed.

Lemma frames_snoc (envs : list Env) (env : Env) (w : option Points * nat) :
  frames random (envs ++ [env]) w = animateParticles random env (frames random envs w).
Proof. unfold frames. rewrite fold_left_app. reflexivity. Qed.

(** X17.  On the field [createParticles] builds (random draws in
    [[0, 1)]), after any number of frames with any pointer positions and
    times, every particle has x in [[-20, 20]], z in [[-10, 10]] and
    y at most 15. *)
Theorem particles_stay_inside_sides_and_top (k j : nat) (envs : list Env) :
  (forall n, 0 <= random n < 1) ->
  (j < particleCount)%nat ->
  let created := createParticles random k in
  exists q k',
    frames random envs (Some (fst created), snd created) = (Some q, k') /\
    -20 <= get (positions q) (3 * j) <= 20 /\
    get (positions q) (3 * j + 1) <= 15 /\
    -10 <= get (positions q) (3 * j + 2) <= 10.
Proof.
  intros Hr Hj created.
  destruct (create_particle random k j Hj) as (Hlp & _ & Hp & _).
  fold created in Hlp, Hp. clearbody created. destruct created as [p k0].
  cbn [fst snd] in *.
  destruct envs as [|env0 envs0] using rev_ind.
  - exists p, k0. split; [reflexivity|].
    apply triple_components in Hp as (Hx & Hy & Hz). rewrite Hx, Hy, Hz.
    pose proof (Hr (k + 8 * j)%nat). pose proof (Hr (k + 8 * j + 1)%nat).
    pose proof (Hr (k + 8 * j + 2)%nat). lra.
  - clear IHenvs0.
    destruct (frames_keep random envs0 p k0) as (q1 & k1 & E1 & _ & _ & _ & Hl1).
    rewrite Hlp in Hl1.
    destruct (animate_particle_bounds random env0 particleCount j q1 k1 Hl1 Hj)
      as (q & k' & E & Hb).
    exists q, k'. rewrite frames_snoc, E1. split; [exact E | exact Hb].
Qed.

(** X18.  A frame on an existing field stores [Date.now() * 0.001] in the
    shader's time uniform and flags the position attribute for upload; the
    array keeps its length.  Without a field a frame changes nothing. *)
Theorem frame_sets_time_and_upload_flag (env : Env) (p : Points) (k : nat) :
  (exists q k',
     animateParticles random env (Some p, k) = (Some q, k') /\
     timeUniform q = dateNow env * 0.001 /\
     needsUpdate q = true /\
     length (positions q) = length (positions p)) /\
  animateParticles random env (None, k) = (None, k).
Proof.
  split; [|reflexivity].
  unfold animateParticles.
  set (p1 := mkPoints (positions p) (velocities p) (sizes p) (colors p)
                      (dateNow env * 0.001) (needsUpdate p)).
  assert (H : rest (fst (fold_left (fun w i => body random env (dateNow env * 0.001) i w)
                           (strideIndices (length (positions p1))) (p1, k))) = rest p1 /\
              length (positions (fst (fold_left
                           (fun w i => body random env (dateNow env * 0.001) i w)
                           (strideIndices (length (positions p1))) (p1, k))))
                = length (positions p1)).
  { apply (fold_left_preserves _
             (fun w => rest (fst w) = rest p1 /\
                       length (positions (fst w)) = length (positions p1))).
    - intros a b [Ha Hb].
      destruct (body_keeps random env (dateNow env * 0.001) b a) as [H1 H2].
      split; congruence.
    - split; reflexivity. }
  destruct (fold_left _ _ (p1, k)) as [q k'].
  destruct H as [Hrest Hl]. cbn [fst] in Hrest, Hl.
  exists (mkPoints (positions q) (velocities q) (sizes q) (colors q) (timeUniform q) true), k'.
  unfold rest in Hrest. injection Hrest as _ _ _ Ht _.
  repeat split; assumption.
Qed.

End WithRandom.

Lemma half_in_unit (n : nat) : 0 <= (fun _ : nat => 0.5) n < 1.
Proof. simpl. lra. Qed.

Lemma created_particle_in_box_witness :
  -15 <= get (positions (fst (createParticles (fun _ => 0.5) 0))) (3 * 7 + 1) <= 15.
Proof.
  apply (created_particle_in_box (fun _ => 0.5) 0 7 half_in_unit).
  unfold particleCount. lia.
Defined.

Lemma created_particle_size_and_colour_witness :
  1 <= get (sizes (fst (createParticles (fun _ => 0.5) 0))) 7 <= 4.
Proof.
  apply (created_particle_size_and_colour (fun _ => 0.5) 0 7 half_in_unit).
  unfold particleCount. lia.
Defined.

Lemma particles_stay_inside_sides_and_top_witness :
  let env := mkEnv 0 900 100 1000 1000 in
  let created := createParticles (fun _ => 0.5) 0 in
  exists q k',
    frames (fun _ => 0.5) [env; env; env] (Some (fst created), snd created) = (Some q, k') /\
    get (positions q) (3 * 7 + 1) <= 15.
Proof.
  intros env created.
  destruct (particles_stay_inside_sides_and_top (fun _ => 0.5) 0 7 [env; env; env]
              half_in_unit ltac:(unfold particleCount; lia))
    as (q & k' & E & _ & Hy & _).
  exists q, k'. split; [exact E | exact Hy].
Defined.

End ParticlesMoreFacts.

(** ** Carousel: range of the offset, speed, measured width *)

Module CarouselMoreFacts.
Import Carousel CarouselEvents CarouselFacts.
Local Open Scope R_scope.

Lemma react_keeps_constants (c : Track) (e : Input) :
  originalTotalWidth (react c e) = originalTotalWidth c /\
  pxPerSecond (react c e) = pxPerSecond c.
Proof.
  destruct e; simpl; try (split; reflexivity).
  unfold step. destruct (running c); split; reflexivity.
Qed.

(** Range and translation are kept by every input. *)
Lemma reactAll_invariant (es : list Input) :
  forall c : Track,
    0 <= pxPerSecond c ->
    0 <= px c < originalTotalWidth c ->
    (translateX c = None \/ translateX c = Some (- px c)) ->
    shortFrames (pxPerSecond c) (originalTotalWidth c) (last c) es ->
    0 <= px (reactAll es c) < originalTotalWidth c /\
    (translateX (reactAll es c) = None \/
     translateX (reactAll es c) = Some (- px (reactAll es c))).
Proof.
  induction es as [|e es IH]; intros c Hs Hpx Htr Hok; [split; assumption|].
  change (reactAll (e :: es) c) with (reactAll es (react c e)).
  destruct (react_keeps_constants c e) as [HW HV].
  rewrite <- HW.
  destruct e as [now| | | |]; cbn [shortFrames] in Hok;
    try (apply IH; [rewrite HV; exact Hs | rewrite HW; exact Hpx | exact Htr
                   | rewrite HW, HV; exact Hok]).
  destruct Hok as (Hdt & Hlt & Hrest).
  assert (Hadv : 0 <= pxPerSecond c * ((now - last c) / 1000))
    by (apply Rmult_le_pos; [exact Hs | lra]).
  apply IH.
  - rewrite HV. exact Hs.
  - rewrite HW. cbn [react]. unfold step.
    destruct (running c); cbn [px]; [|exact Hpx].
    destruct (Rge_dec _ _); lra.
  - cbn [react]. unfold step.
    destruct (running c); cbn [px translateX]; [right; reflexivity | exact Htr].
  - rewrite HW, HV.
    replace (last (react c (Tick now))) with now; [exact Hrest|].
    cbn [react]. unfold step. destruct (running c); reflexivity.
Qed.

Lemma setup_width_positive (widths : list R) (gap : jsnum) (now : R) (c : Track) :
  Forall (fun w => 0 <= w) widths -> gapOk gap ->
  setup widths gap now = Some c -> 0 < originalTotalWidth c.
Proof.
  intros Hw Hgap Hc.
  destruct (setup_initial _ _ _ _ Hc) as (_ & _ & _ & _ & _ & Hfb & _).
  assert (Hm : gapOk (measure widths gap)).
  { apply sumWidths_gapOk; try assumption. simpl. lra. }
  destruct (fallback_finite (measure widths gap)) as (r & Hr & Hne).
  rewrite Hr in Hfb. injection Hfb as <-.
  destruct (measure widths gap) as [m| | |]; unfold fallback in Hr; simpl in Hr, Hm.
  - destruct (Req_dec_T m 0); simpl in Hr; injection Hr as <-; lra.
  - injection Hr as <-. lra.
  - injection Hr as <-. lra.
  - contradiction.
Qed.

(** X19.  After setup, through any mix of frames and pointer or focus
    events, as long as no frame comes earlier than the one before or would
    advance the offset by a whole set width, the offset stays in [[0, S)]
    and the translation written to the track, once there is one, is the
    negated offset; frames that arrive while paused count as frames. *)
Theorem offset_stays_within_one_width
    (widths : list R) (gap : jsnum) (now0 : R) (c : Track) (es : list Input) :
  Forall (fun w => 0 <= w) widths ->
  gapOk gap ->
  setup widths gap now0 = Some c ->
  shortFrames (pxPerSecond c) (originalTotalWidth c) now0 es ->
  0 <= px (reactAll es c) < originalTotalWidth c /\
  (translateX (reactAll es c) = None \/
   translateX (reactAll es c) = Some (- px (reactAll es c))).
Proof.
  intros Hw Hgap Hc Hok.
  pose proof (setup_width_positive widths gap now0 c Hw Hgap Hc) as HS.
  destruct (setup_initial _ _ _ _ Hc) as (Hpx & Hlast & _ & Hspeed & Htr & _).
  apply reactAll_invariant.
  - lra.
  - rewrite Hpx. lra.
  - left. exact Htr.
  - rewrite Hlast. exact Hok.
Qed.

Lemma modulo_range (x S : R) : 0 < S -> 0 <= modulo x S < S.
Proof.
  intros HS. unfold modulo.
  destruct (base_Int_part (x / S)) as [Hlo Hhi].
  assert (Hx : x = x / S * S) by (field; lra).
  set (q := x / S) in *. set (n := IZR (Int_part q)) in *.
  split; nra.
Qed.

(** X20.  The wrap subtracts one set width at most: a frame that would
    carry a running track two set widths or more past zero leaves the
    offset at or beyond the width, which is not the remainder modulo the
    width. *)
Theorem long_frame_is_not_wrapped_to_modulo (c : Track) (now : R) :
  running c = true ->
  0 < originalTotalWidth c ->
  let reached := px c + pxPerSecond c * ((now - last c) / 1000) in
  2 * originalTotalWidth c <= reached ->
  px (step now c) = reached - originalTotalWidth c /\
  originalTotalWidth c <= px (step now c) /\
  px (step now c) <> modulo reached (originalTotalWidth c).
Proof.
  intros Hrun HS reached Hlong.
  assert (E : px (step now c) = reached - originalTotalWidth c).
  { rewrite step_running by exact Hrun. cbn [px]. fold reached.
    destruct (Rge_dec reached (originalTotalWidth c)); lra. }
  pose proof (modulo_range reached (originalTotalWidth c) HS) as Hm.
  split; [exact E|]. split; lra.
Qed.

Lemma long_frame_is_not_wrapped_to_modulo_witness :
  let c := mkTrack 600 100 0 0 true None in
  px (step 13000 c) = 700.
Proof.
  intros c.
  destruct (long_frame_is_not_wrapped_to_modulo c 13000) as (E & _).
  - reflexivity.
  - simpl. lra.
  - simpl. lra.
  - rewrite E. simpl. lra.
Defined.

Lemma round_near (x : R) : x - 0.5 < round x <= x + 0.5.
Proof.
  unfold round. destruct (base_Int_part (x + 0.5)) as [Hlo Hhi]. lra.
Qed.

(** X21.  The speed is a whole number of pixels per second, 30 at least;
    for a set of 180 px or more it is the whole number nearest to [S / 6]
    (halves upwards), so that a set takes about six seconds, and for
    177 px or less it is exactly 30. *)
Theorem speed_is_a_sixth_of_the_width
    (widths : list R) (gap : jsnum) (now0 : R) (c : Track) :
  setup widths gap now0 = Some c ->
  exists n : Z,
    pxPerSecond c = IZR n /\
    (30 <= n)%Z /\
    (180 <= originalTotalWidth c ->
       originalTotalWidth c / 6 - 0.5 < IZR n <= originalTotalWidth c / 6 + 0.5) /\
    (originalTotalWidth c <= 177 -> n = 30%Z).
Proof.
  intros Hc.
  destruct (setup_initial _ _ _ _ Hc) as (_ & _ & _ & H30 & _ & _ & Hv).
  pose proof (round_near (originalTotalWidth c / 6)) as Hr.
  set (m := Int_part (originalTotalWidth c / 6 + 0.5)) in *.
  assert (Hround : round (originalTotalWidth c / 6) = IZR m) by reflexivity.
  rewrite Hround in Hv, Hr.
  destruct (Z_lt_le_dec m 30) as [Hlt|Hge].
  - exists 30%Z.
    assert (Hm : IZR m <= 30) by (apply IZR_le; lia).
    split; [rewrite Hv; apply Rmax_left; exact Hm|].
    split; [lia|]. split; [|reflexivity].
    intros HS. exfalso.
    assert (Hz : (29 < m)%Z) by (apply lt_IZR; lra). lia.
  - exists m.
    assert (Hm : 30 <= IZR m) by (apply IZR_le; exact Hge).
    split; [rewrite Hv; apply Rmax_right; exact Hm|].
    split; [exact Hge|]. split; [intros _; exact Hr|].
    intros HS.
    assert (Hz : (m < 31)%Z) by (apply lt_IZR; lra). lia.
Qed.

Lemma speed_is_a_sixth_of_the_width_witness :
  exists c, setup [200; 200; 200] (Num 0) 0 = Some c /\
    exists n : Z, pxPerSecond c = IZR n /\ (30 <= n)%Z.
Proof.
  destruct (setup_defined [200; 200; 200] (Num 0) 0) as [c Hc].
  exists c. split; [exact Hc|].
  destruct (speed_is_a_sixth_of_the_width [200; 200; 200] (Num 0) 0 c Hc)
    as (n & Hn & H30 & _).
  exists n. split; assumption.
Defined.

Lemma sumWidths_finite (g : R) (len : nat) (widths : list R) :
  forall (i : nat) (t : R),
    (i + length widths)%nat = len ->
    sumWidths (Num g) len i widths (Num t) =
      Num (t + total widths + INR (length widths - 1) * g).
Proof.
  induction widths as [|w widths IH]; intros i t Hlen.
  - simpl. f_equal. lra.
  - cbn [sumWidths add length total fold_right] in *.
    destruct widths as [|w' widths'].
    + assert (Hi : (i <? len - 1)%nat = false) by (apply Nat.ltb_ge; simpl in Hlen; lia).
      rewrite Hi. simpl. f_equal. lra.
    + assert (Hi : (i <? len - 1)%nat = true) by (apply Nat.ltb_lt; simpl in Hlen; lia).
      rewrite Hi. cbn [add]. rewrite IH by (simpl in *; lia).
      f_equal. cbn [length]. rewrite Nat.sub_succ, Nat.sub_0_r.
      replace (S (S (length widths')) - 1)%nat with (S (length widths')) by lia.
      rewrite (S_INR (length widths')).
      replace (S (length widths') - 1)%nat with (length widths') by lia.
      cbn [total fold_right]. lra.
Qed.

(** X22.  With a finite gap the measured width is the sum of the item
    widths plus one gap between each two neighbours ([n - 1] gaps for [n]
    items, none for a single item or an empty track). *)
Theorem measured_width_is_sum_plus_gaps (widths : list R) (g : R) :
  measure widths (Num g) = Num (total widths + INR (length widths - 1) * g).
Proof.
  unfold measure. rewrite sumWidths_finite by lia. f_equal. lra.
Qed.

Lemma sumWidths_nan (gap : jsnum) (len : nat) (widths : list R) :
  forall i, sumWidths gap len i widths NaN = NaN.
Proof.
  induction widths as [|w widths IH]; intros i; [reflexivity|].
  cbn [sumWidths]. simpl add.
  destruct (i <? len - 1)%nat; [destruct gap|]; apply IH.
Qed.

Lemma round_167 : round (1000 / 6) = 167.
Proof.
  unfold round.
  assert (H : 167%Z = Int_part (1000 / 6 + 0.5)) by (apply Int_part_spec; simpl; lra).
  rewrite <- H. reflexivity.
Qed.

(** X23.  When the parsed gap is [NaN] (a computed gap that is not a
    length) and the track has two items or more, the measured width is
    [NaN] whatever the items measure, so the carousel runs on the fallback:
    a set width of 1000 px at 167 px/s.  An empty track takes the fallback
    too; a single item is measured without the gap. *)
Theorem nan_gap_runs_on_fallback (widths : list R) (now : R) :
  (2 <= length widths)%nat ->
  measure widths NaN = NaN /\
  setup widths NaN now = Some (mkTrack 1000 167 0 now true None) /\
  setup [] NaN now = Some (mkTrack 1000 167 0 now true None) /\
  forall w, measure [w] NaN = Num (0 + w).
Proof.
  intros Hlen.
  assert (Hm : measure widths NaN = NaN).
  { destruct widths as [|w rest]; [simpl in Hlen; lia|].
    unfold measure. cbn [sumWidths].
    assert (Hi : (0 <? length (w :: rest) - 1)%nat = true)
      by (apply Nat.ltb_lt; simpl in *; lia).
    rewrite Hi. apply sumWidths_nan. }
  assert (Hspeed : Rmax 30 (round (1000 / 6)) = 167).
  { rewrite round_167. apply Rmax_right. lra. }
  split; [exact Hm|]. split; [|split].
  - unfold setup. rewrite Hm. unfold fallback. cbn [truthy isFinite negb orb].
    rewrite Hspeed. reflexivity.
  - unfold setup, measure. cbn [sumWidths length]. unfold fallback. cbn [truthy isFinite].
    destruct (Req_dec_T 0 0) as [_|Hne]; [|contradiction].
    cbn [negb orb]. rewrite Hspeed. reflexivity.
  - intros w. reflexivity.
Qed.

Lemma nan_gap_runs_on_fallback_witness :
  setup [320; 280; 300] NaN 0 = Some (mkTrack 1000 167 0 0 true None).
Proof.
  apply (nan_gap_runs_on_fallback [320; 280; 300] 0). simpl. lia.
Defined.

Lemma offset_stays_within_one_width_witness :
  exists c, setup [200; 200; 200] (Num 0) 0 = Some c /\
    0 <= px (reactAll [Tick 16; MouseEnter; Tick 5000; MouseLeave; Tick 5016] c)
      < originalTotalWidth c.
Proof.
  destruct (setup_defined [200; 200; 200] (Num 0) 0) as [c Hc].
  exists c. split; [exact Hc|].
  assert (Hw : originalTotalWidth c = 600 /\ pxPerSecond c = 100).
  { revert Hc. unfold setup, measure, fallback. simpl.
    replace (0 + 200 + 0 + 200 + 0 + 200) with 600 by lra.
    destruct (Req_dec_T 600 0) as [Hz|_]; [lra|]. simpl.
    intros [= <-]. simpl. split; [reflexivity|].
    rewrite round_100. unfold Rmax. destruct (Rle_dec 30 100); lra. }
  destruct Hw as [HS Hv].
  apply (offset_stays_within_one_width [200; 200; 200] (Num 0) 0 c
           [Tick 16; MouseEnter; Tick 5000; MouseLeave; Tick 5016]).
  - repeat constructor; lra.
  - simpl. lra.
  - exact Hc.
  - rewrite HS, Hv. simpl. lra.
Defined.

End CarouselMoreFacts.
